(** * slenderaac: the validation engine and the account-registration action

    A shallow embedding of
      - [$lib/utils]: [toProperCase], [toTitleCase];
      - [$lib/server/validations]: [validate] and the domain validators;
      - the registration route's [actions.default];
    with the properties of the specification stated over it. *)

From Stdlib Require Import NArith ZArith Strings.String Strings.Ascii.
From stdpp Require Import base option list gmap fin_maps.

Local Open Scope N_scope.

(** ** JavaScript strings

    A JavaScript string is a sequence of UTF-16 code units; [length],
    indexing and the regular expressions of this code (none has the [u]
    flag) all work on code units. *)

Abbreviation jsstring := (list N).

(** [js "abc"] is the JavaScript literal ['abc'] (code units below 256). *)
Definition js (s : string) : jsstring :=
  List.map N_of_ascii (list_ascii_of_string s).

Module Char.

Definition isAscii (c : N) : bool := c <? 128.

(** [[A-Z]] *)
Definition isUpperAZ (c : N) : bool := (65 <=? c) && (c <=? 90).

(** [[a-z]] *)
Definition isLowerAZ (c : N) : bool := (97 <=? c) && (c <=? 122).

(** [[0-9]] *)
Definition isDigit (c : N) : bool := (48 <=? c) && (c <=? 57).

(** [\w] without the [u] and [i] flags: [[A-Za-z0-9_]]. *)
Definition isWord (c : N) : bool :=
  isUpperAZ c || isLowerAZ c || isDigit c || (c =? 95).

(** LineTerminator: LF, CR, LS, PS.  [.] matches everything else. *)
Definition isLineTerminator (c : N) : bool :=
  (c =? 10) || (c =? 13) || (c =? 8232) || (c =? 8233).

(** [\s], and what [trim] strips: WhiteSpace and LineTerminator. *)
Definition isSpace (c : N) : bool :=
  ((9 <=? c) && (c <=? 13)) || (c =? 32) || (c =? 160) || (c =? 5760)
  || ((8192 <=? c) && (c <=? 8202)) || (c =? 8232) || (c =? 8233)
  || (c =? 8239) || (c =? 8287) || (c =? 12288) || (c =? 65279).

Definition toUpper (c : N) : N := if isLowerAZ c then c - 32 else c.
Definition toLower (c : N) : N := if isUpperAZ c then c + 32 else c.

End Char.

(** Case conversion outside ASCII follows the Unicode tables of the engine
    (one code unit may become several, and the context matters); the
    embedding takes it as a parameter and fixes the ASCII part. *)
Class Unicode := {
  unicodeUpper : jsstring -> jsstring;
  unicodeLower : jsstring -> jsstring;
}.

(** The instance used to evaluate the code on ASCII inputs. *)
Definition asciiOnly : Unicode :=
  {| unicodeUpper := fun s => s; unicodeLower := fun s => s |}.

Module Str.
Section WithUnicode.
Context {U : Unicode}.

(** [s.toUpperCase()] *)
Definition toUpperCase (s : jsstring) : jsstring :=
  if forallb Char.isAscii s then List.map Char.toUpper s else unicodeUpper s.

(** [s.toLowerCase()] *)
Definition toLowerCase (s : jsstring) : jsstring :=
  if forallb Char.isAscii s then List.map Char.toLower s else unicodeLower s.

End WithUnicode.

Definition eqb (s t : jsstring) : bool := bool_decide (s = t).

(** [s.startsWith(p)] *)
Fixpoint startsWith (s p : jsstring) : bool :=
  match p, s with
  | [], _ => true
  | _ :: _, [] => false
  | b :: p', a :: s' => (a =? b) && startsWith s' p'
  end.

(** [s.includes(p)] *)
Fixpoint includes (s p : jsstring) : bool :=
  startsWith s p ||
  match s with
  | [] => false
  | _ :: s' => includes s' p
  end.

(** The text before and the text after the first occurrence of [p]. *)
Fixpoint splitFirst (p s : jsstring) : option (jsstring * jsstring) :=
  if startsWith s p then Some ([], drop (length p) s)
  else match s with
       | [] => None
       | c :: s' =>
           match splitFirst p s' with
           | Some (before, after) => Some (c :: before, after)
           | None => None
           end
       end.

(** GetSubstitution for a string pattern (no captures): in the
    replacement text [$$] is a dollar, [$&] the matched text, [$`] the
    text before the match and [$'] the text after it; every other
    character stands for itself. *)
Fixpoint getSubstitution (matched before after template : jsstring)
  : jsstring :=
  match template with
  | [] => []
  | c :: rest =>
      match rest with
      | [] => [c]
      | d :: rest' =>
          if negb (c =? 36) then c :: getSubstitution matched before after rest
          else if d =? 36 then 36 :: getSubstitution matched before after rest'
          else if d =? 38 then matched ++ getSubstitution matched before after rest'
          else if d =? 96 then before ++ getSubstitution matched before after rest'
          else if d =? 39 then after ++ getSubstitution matched before after rest'
          else c :: getSubstitution matched before after rest
      end
  end.

(** The replacement text has one of these four patterns. *)
Fixpoint hasPattern (template : jsstring) : bool :=
  match template with
  | [] => false
  | c :: rest =>
      match rest with
      | [] => false
      | d :: _ =>
          ((c =? 36) && ((d =? 36) || (d =? 38) || (d =? 96) || (d =? 39)))
          || hasPattern rest
      end
  end.

(** [s.replace(p, r)] for strings [p] and [r]: the first occurrence only. *)
Definition replace (s p r : jsstring) : jsstring :=
  match splitFirst p s with
  | None => s
  | Some (before, after) => before ++ getSubstitution p before after r ++ after
  end.

Fixpoint dropSpaces (s : jsstring) : jsstring :=
  match s with
  | [] => []
  | c :: s' => if Char.isSpace c then dropSpaces s' else s
  end.

(** [s.trim()] *)
Definition trim (s : jsstring) : jsstring :=
  rev (dropSpaces (rev (dropSpaces s))).

End Str.

(** ** [$lib/utils] *)

Section Utils.
Context {U : Unicode}.

(** [.replace(/([A-Z])/g, (c) => ` ${c.toLowerCase()}`)] *)
Definition spaceCapitals (str : jsstring) : jsstring :=
  flat_map (fun c => if Char.isUpperAZ c then 32 :: Str.toLowerCase [c]
                     else [c]) str.

(** [.replace(/^./, (str) => str.toUpperCase())]: the pattern matches at
    the start only, one code unit that is not a line terminator. *)
Definition upperFirst (str : jsstring) : jsstring :=
  match str with
  | [] => []
  | c :: rest =>
      if Char.isLineTerminator c then str else Str.toUpperCase [c] ++ rest
  end.

Definition toProperCase (str : jsstring) : jsstring :=
  upperFirst (spaceCapitals str).

(** [str.replace(/\w\S*/g, (w) => w.replace(/^\w/, (c) => c.toUpperCase()))].
    A match starts at the first word character after the previous match
    and runs up to the next white space; [inMatch] tells whether the
    scan is inside one.  Only the first code unit of a match changes. *)
Fixpoint titleWords (inMatch : bool) (str : jsstring) : jsstring :=
  match str with
  | [] => []
  | c :: rest =>
      if inMatch then c :: titleWords (negb (Char.isSpace c)) rest
      else if Char.isWord c then Str.toUpperCase [c] ++ titleWords true rest
      else c :: titleWords false rest
  end.

Definition toTitleCase (str : jsstring) : jsstring := titleWords false str.

End Utils.

(** ** Form values

    [FormData.get] answers a string, a [File] or [null]; the validators
    take the value as [unknown] and narrow it. *)

Inductive Value :=
| VNull
| VString (s : jsstring)
| VFile (id : N).   (* an object, known by its identity *)

#[global] Instance Value_eq_dec : EqDecision Value.
Proof. solve_decision. Defined.

Module Js.

(** ToBoolean *)
Definition truthy (v : Value) : bool :=
  match v with
  | VNull => false
  | VString [] => false
  | VString (_ :: _) => true
  | VFile _ => true
  end.

(** [typeof v === 'string'] *)
Definition isString (v : Value) : bool :=
  match v with VString _ => true | _ => false end.

(** [a === b] *)
Definition strictEq (a b : Value) : bool := bool_decide (a = b).

(** The names every plain object inherits from [Object.prototype]; the
    value behind each of them is an object or a function, hence truthy,
    and has no [push]. *)
Definition objectPrototypeNames : list jsstring :=
  List.map js
    ["constructor"; "__defineGetter__"; "__defineSetter__"; "hasOwnProperty";
     "__lookupGetter__"; "__lookupSetter__"; "isPrototypeOf";
     "propertyIsEnumerable"; "toString"; "valueOf"; "__proto__";
     "toLocaleString"]%string.

Definition inherited (key : jsstring) : bool :=
  bool_decide (key ∈ objectPrototypeNames).

End Js.

(** The entries of a form, in the order they were appended. *)
Abbreviation FormData := (list (jsstring * Value)).

(** [data.get(key)]: the first value under the name, else [null]. *)
Fixpoint formGet (data : FormData) (key : jsstring) : Value :=
  match data with
  | [] => VNull
  | (name, value) :: rest =>
      if Str.eqb name key then value else formGet rest key
  end.

(** ** Effects

    The code is asynchronous and sequential: every call is awaited before
    the next statement.  A computation takes the state of the world to an
    outcome and the next state; an outcome is a value or a thrown
    exception. *)

Inductive Exn :=
| TypeError
| InvariantFailed (message : jsstring)
| UniqueConstraint
| Redirect (location flashType flashMessage : jsstring).

Inductive outcome (A : Type) :=
| Return (a : A)
| Throw (e : Exn).
Arguments Return {A} a.
Arguments Throw {A} e.

Definition M (W A : Type) : Type := W -> outcome A * W.

Definition ret {W A} (a : A) : M W A := fun w => (Return a, w).

Definition throw {W A} (e : Exn) : M W A := fun w => (Throw e, w).

Definition bind {W A B} (m : M W A) (k : A -> M W B) : M W B :=
  fun w =>
    match m w with
    | (Return a, w') => k a w'
    | (Throw e, w') => (Throw e, w')
    end.

Notation "'let*' x ':=' m 'in' k" := (bind m (fun x => k))
  (at level 10, x pattern, m at level 100, k at level 200).

(** An error report: field name to its messages, in the order pushed. *)
Abbreviation Report := (gmap jsstring (list jsstring)).

(** ** [$lib/server/validations]: the engine *)

Section Engine.
Context {U : Unicode} {W : Type}.

(** A validator answers a message or [null], unless it throws; it may be
    asynchronous and consult, or change, the world. *)
Definition Validator : Type := Value -> M W (option jsstring).

(** [errors[key] ||= []; errors[key].push(message)].  The read of
    [errors[key]] sees inherited properties too: under such a name
    nothing is assigned and [push] is not a function. *)
Definition pushError (key message : jsstring) (errors : Report)
  : M W Report :=
  match errors !! key with
  | Some messages => ret (<[key := messages ++ [message]]> errors)
  | None =>
      if Js.inherited key then throw TypeError
      else ret (<[key := [message]]> errors)
  end.

(** The inner loop: [for (const validator of validators)]. *)
Fixpoint validateField (key : jsstring) (value : Value)
  (validators : list Validator) (errors : Report) : M W Report :=
  match validators with
  | [] => ret errors
  | validator :: rest =>
      let* error := validator value in
      let* errors' :=
        match error with
        | Some ((_ :: _) as message) =>      (* if (error) *)
            pushError key
              (Str.replace message (js ":field") (toProperCase key)) errors
        | _ => ret errors
        end in
      validateField key value rest errors'
  end.

(** The outer loop over [Object.entries(rules)], given as the list of
    entries in enumeration order. *)
Fixpoint validateEntries (entries : list (jsstring * list Validator))
  (data : FormData) (errors : Report) : M W Report :=
  match entries with
  | [] => ret errors
  | (key, validators) :: rest =>
      let value := formGet data key in
      let* errors' := validateField key value validators errors in
      validateEntries rest data errors'
  end.

Definition validate (rules : list (jsstring * list Validator))
  (data : FormData) : M W Report :=
  validateEntries rules data ∅.

End Engine.

(** ** The world of the registration route *)

(** What the route takes from the rest of the repository and from its
    environment. *)
Class Collaborators := {
  (** [$env/static/public] *)
  PUBLIC_TITLE : jsstring;
  (** [$lib/players] *)
  Sex : Type;
  Pronoun : Type;
  parsePlayerSex : jsstring -> Sex;
  parsePlayerPronoun : Value -> Pronoun;
  (** [$lib/server/players]: the starting attributes of a character *)
  Attributes : Type;
  startingAttributes : jsstring -> Pronoun -> Sex -> Attributes;
  (** [$lib/server/utils] *)
  hashPassword : jsstring -> jsstring;
  (** the token column's database default, by the number of rows so far *)
  defaultToken : nat -> jsstring;
  (** the collation of the monsters' name column: which texts, other than
      equal ones, the database takes for the same name (texts that differ
      by letter case only, under a case-insensitive collation; none, under
      a binary one) *)
  collates : jsstring -> jsstring -> bool;
}.

Section Registration.
Context {U : Unicode} {C : Collaborators}.

Record CharacterInput := {
  input_name : jsstring;
  input_pronoun : Pronoun;
  input_sex : Sex;
  input_attributes : Attributes;
}.

(** Modelled from the spec: [generateCharacterInput] is not part of the
    sources; section 4.4 has it compute the creation payload: name,
    pronoun, sex and the derived starting attributes. *)
Definition generateCharacterInput (name : jsstring) (pronoun : Pronoun)
  (sex : Sex) : CharacterInput :=
  {| input_name := name; input_pronoun := pronoun; input_sex := sex;
     input_attributes := startingAttributes name pronoun sex |}.

Record Account := {
  account_id : nat;
  account_email : jsstring;
  account_password : jsstring;
}.

Record Player := {
  player_account : nat;
  player_input : CharacterInput;
  player_is_main : bool;
}.

Record EmailVerification := {
  verification_account : nat;
  verification_token : jsstring;
  verification_expires : Z;      (* milliseconds since the epoch *)
}.

Record Database := {
  monsters : list jsstring;      (* the name column *)
  accounts : list Account;
  players : list Player;
  emailVerifications : list EmailVerification;
}.

(** [{ ...characterInput, is_main }] *)
Record PlayerCreate := {
  create_input : CharacterInput;
  create_is_main : bool;
}.

(** The [data] of [prisma.accounts.create]. *)
Record AccountCreate := {
  data_email : jsstring;
  data_password : jsstring;
  data_players : list PlayerCreate;       (* [players.createMany.data] *)
  data_expires : Z;                       (* [emailVerification.create] *)
}.

Inductive Query :=
| MonstersCount (name : jsstring)
| AccountsFindUnique (email : jsstring)
| PlayersFindFirst (name : jsstring)
| AccountsCreate (data : AccountCreate).

Record World := {
  (** [$_], the message lookup of the current locale *)
  translate : jsstring -> list (jsstring * Z) -> jsstring;
  database : Database;
  (** [Date.now()] *)
  now : Z;
  (** verification mails sent: address and token *)
  outbox : list (jsstring * jsstring);
  (** the persistence calls made so far *)
  queries : list Query;
}.

Definition logged (q : Query) (w : World) : World :=
  {| translate := translate w; database := database w; now := now w;
     outbox := outbox w; queries := queries w ++ [q] |}.

Definition logQuery (q : Query) : M World unit :=
  fun w => (Return tt, logged q w).

Definition setDatabase (db : Database) : M World unit :=
  fun w =>
    (Return tt,
     {| translate := translate w; database := db; now := now w;
        outbox := outbox w; queries := queries w |}).

Definition getDatabase : M World Database :=
  fun w => (Return (database w), w).

(** [Date.now()] *)
Definition dateNow : M World Z := fun w => (Return (now w), w).

(** *** Persistence

    Modelled from the spec: the data-access layer is not part of the
    sources; sections 4.3, 4.4 and 6 give find-by-key and count, and an
    atomic create under storage-level uniqueness of email and character
    name (section 5).  The calls below are those of a store that answers:
    the transport or storage error that section 6 allows each of them is
    not modelled, and neither is a request that runs between two calls of
    this one. *)

(** How the database compares a monster's name with the name asked for:
    the code hands the name over as it is, [where: { name: value }].  Equal
    texts are the same name; what else is, is the column's collation. *)
Definition sameName (monster name : jsstring) : bool :=
  Str.eqb monster name || collates monster name.


(** Modelled from the spec: [prisma.monsters.count({ where: { name } })]. *)
Definition monstersCount (name : jsstring) (w : World) : nat * World :=
  (length (List.filter (fun m => sameName m name) (monsters (database w))),
   logged (MonstersCount name) w).

(** Modelled from the spec: [prisma.accounts.findUnique({ where: { email } })]. *)
Definition accountsFindUnique (email : jsstring) : M World (option Account) :=
  let* _ := logQuery (AccountsFindUnique email) in
  let* db := getDatabase in
  ret (List.find (fun a => Str.eqb (account_email a) email) (accounts db)).

(** Modelled from the spec: [prisma.players.findFirst({ where: { name } })]. *)
Definition playersFindFirst (name : jsstring) : M World (option Player) :=
  let* _ := logQuery (PlayersFindFirst name) in
  let* db := getDatabase in
  ret (List.find
         (fun p => Str.eqb (input_name (player_input p)) name)
         (players db)).

(** What [create] answers with [include: { emailVerification: true }]. *)
Record Created := {
  created_email : jsstring;
  created_emailVerification : option EmailVerification;
}.

(** Modelled from the spec: [prisma.accounts.create] with its nested
    writes, all or nothing.  A store that answers yields the account with
    its verification row; the action's branch for a missing row
    (["Failed to create account"]) is kept in the action and is met only
    on a store that does not, which is not modelled. *)
Definition accountsCreate (data : AccountCreate) : M World Created :=
  let* _ := logQuery (AccountsCreate data) in
  let* db := getDatabase in
  if existsb (fun a => Str.eqb (account_email a) (data_email data))
       (accounts db)
     || existsb
          (fun c =>
             existsb
               (fun p => Str.eqb (input_name (player_input p))
                           (input_name (create_input c)))
               (players db))
          (data_players data)
  then throw UniqueConstraint
  else
    let id := S (length (accounts db)) in
    let account :=
      {| account_id := id; account_email := data_email data;
         account_password := data_password data |} in
    let verification :=
      {| verification_account := id;
         verification_token := defaultToken (length (emailVerifications db));
         verification_expires := data_expires data |} in
    let* _ := setDatabase
      {| monsters := monsters db;
         accounts := accounts db ++ [account];
         players := players db ++
           List.map (fun c => {| player_account := id;
                                 player_input := create_input c;
                                 player_is_main := create_is_main c |})
             (data_players data);
         emailVerifications := emailVerifications db ++ [verification] |} in
    ret {| created_email := data_email data;
           created_emailVerification := Some verification |}.

(** Modelled from the spec: [sendVerificationEmail(email, token)], on a
    mail transport that accepts the mail; the action awaits the call after
    the creation and does not catch what it throws. *)
Definition sendVerificationEmail (email token : jsstring) : M World unit :=
  fun w =>
    (Return tt,
     {| translate := translate w; database := database w; now := now w;
        outbox := outbox w ++ [(email, token)]; queries := queries w |}).

End Registration.

(** ** [$lib/server/validations]: the domain validators *)

Section Validators.
Context {U : Unicode} {C : Collaborators}.

(** A validator that only reads the world. *)
Definition reading (f : World -> option jsstring) : M World (option jsstring) :=
  fun w => (Return (f w), w).

Definition presenceValidator : @Validator World := fun value =>
  reading (fun w =>
    if negb (Js.truthy value)
    then Some (translate w (js "validations.required") [])
    else None).

Definition stringValidator : @Validator World := fun value =>
  reading (fun w =>
    if Js.truthy value && negb (Js.isString value)
    then Some (translate w (js "validations.string") [])
    else None).

(** [[^@]+\.[^@]+] on a text without [@]: a dot with something on
    either side. *)
Fixpoint dotInside (domain : jsstring) : bool :=
  match domain with
  | _ :: ((d :: after) as rest) =>
      ((d =? 46) && negb (bool_decide (after = []))) || dotInside rest
  | _ => false
  end.

(** [/^[^@]+@[^@]+\.[^@]+$/.test(value)] *)
Definition emailPattern (value : jsstring) : bool :=
  match Str.splitFirst [64] value with
  | Some (localPart, domain) =>
      negb (bool_decide (localPart = []))
      && negb (Str.includes domain [64])
      && dotInside domain
  | None => false
  end.

Definition emailValidator : @Validator World := fun value =>
  reading (fun w =>
    match value with
    | VString value =>
        if negb (emailPattern value)
        then Some (translate w (js "validations.email") [])
        else None
    | _ => Some (translate w (js "validations.string") [])
    end).

Definition BLOCKD_PREFIXES : list jsstring :=
  List.map js ["gm"; "dm"; "god"; "cm"; "tutor"; "senior"; "'"; "-"]%string.

Definition BLOCKED_WORDS : list jsstring :=
  List.map js
    ["admin"; "administrator"; "gamemaster"; "game master"; "game-master";
     "game'master"; "--"; "''"; "' "; " '"; "- "; " -"; "-'"; "'-"]%string
  ++ [Str.toLowerCase PUBLIC_TITLE].

(** [/^[a-z- ']+$/.test(s)] *)
Definition namePattern (s : jsstring) : bool :=
  negb (bool_decide (s = []))
  && forallb (fun c => Char.isLowerAZ c || (c =? 45) || (c =? 32) || (c =? 39)) s.

Definition characterNameValidator : @Validator World := fun value w =>
  match value with
  | VString value =>
      if (length value <? 3)%nat then
        (Return (Some (translate w (js "validations.min-length") [(js "min", 3%Z)])), w)
      else if (20 <? length value)%nat then
        (Return (Some (translate w (js "validations.max-length") [(js "max", 20%Z)])), w)
      else if negb (Str.eqb (toTitleCase value) value) then
        (Return (Some (translate w (js "validations.title-case") [])), w)
      else if existsb (fun prefix => Str.startsWith (Str.toLowerCase value) prefix)
                BLOCKD_PREFIXES then
        (Return (Some (translate w (js "validations.blocked-words") [])), w)
      else if existsb (fun blockedName => Str.includes (Str.toLowerCase value) blockedName)
                BLOCKED_WORDS then
        (Return (Some (translate w (js "validations.blocked-words") [])), w)
      else if negb (Str.eqb (Str.trim value) value) then
        (Return (Some (translate w (js "validations.blocked-words") [])), w)
      else if negb (namePattern (Str.toLowerCase value)) then
        (Return (Some (translate w (js "validations.name") [])), w)
      else
        let (count, w') := monstersCount value w in
        if (0 <? count)%nat
        then (Return (Some (translate w' (js "validations.name-monster") [])), w')
        else (Return None, w')
  | _ => (Return (Some (translate w (js "validations.string") [])), w)
  end.

(** [/^[a-z0-9-]+$/.test(s)] *)
Definition slugPattern (s : jsstring) : bool :=
  negb (bool_decide (s = []))
  && forallb (fun c => Char.isLowerAZ c || Char.isDigit c || (c =? 45)) s.

Definition slugValidator : @Validator World := fun value w =>
  match value with
  | VString value =>
      if (length value <? 3)%nat then
        (Return (Some (translate w (js "validations.min-length") [(js "min", 3%Z)])), w)
      else if (20 <? length value)%nat then
        (Return (Some (translate w (js "validations.max-length") [(js "max", 20%Z)])), w)
      else if negb (Str.eqb value (Str.toLowerCase value)) then
        (Return (Some (translate w (js "validations.lower-case") [])), w)
      else if negb (slugPattern value) then
        (Return (Some (translate w (js "validations.slug") [])), w)
      else (Return None, w)
  | _ => (Throw (InvariantFailed (js "Slug must be a string")), w)
  end.

End Validators.

(** ** The registration action *)

Record ActionFailure := {
  status : Z;
  invalid : option bool;       (* the [invalid] key, when the body has it *)
  errors : Report;
}.

Section Action.
Context {U : Unicode} {C : Collaborators}.

(** The inline validator of the confirmation field. *)
Definition passwordsMatch (password : Value) : @Validator World := fun value =>
  reading (fun _ =>
    if negb (Js.strictEq value password)
    then Some (js "Passwords do not match")
    else None).

Definition registrationRules (password : Value)
  : list (jsstring * list (@Validator World)) :=
  [ (js "email", [presenceValidator; emailValidator]);
    (js "password", [presenceValidator; stringValidator]);
    (js "passwordConfirmation",
      [presenceValidator; stringValidator; passwordsMatch password]);
    (js "characterName", [presenceValidator; characterNameValidator]);
    (js "characterSex", [presenceValidator; stringValidator]) ].

(** [invariant(condition, message)] *)
Definition invariant (condition : bool) (message : string) : M World unit :=
  if condition then ret tt else throw (InvariantFailed (js message)).

(** [invariant(typeof v === 'string', message)], after which [v] is a
    string. *)
Definition invariantString (v : Value) (message : string) : M World jsstring :=
  match v with
  | VString s => ret s
  | _ => throw (InvariantFailed (js message))
  end.

Definition thirtyDays : Z := (1000 * 60 * 60 * 24 * 30)%Z.

End Action.

Module actions.
Section Default.
Context {U : Unicode} {C : Collaborators}.

(** [actions.default], from the form data of the request on.  Its only
    normal return is a failure; success ends in the thrown redirect. *)
Definition default (data : FormData) : M World ActionFailure :=
  let email := formGet data (js "email") in
  let password := formGet data (js "password") in
  let characterName := formGet data (js "characterName") in
  let characterSex := formGet data (js "characterSex") in
  let characterPronouns := formGet data (js "characterPronouns") in
  let* errors := validate (registrationRules password) data in
  if (0 <? size errors)%nat then
    ret {| status := 400; invalid := Some true; errors := errors |}
  else
  let* _ := invariant (Js.truthy email && Js.truthy password
                       && Js.truthy characterName && Js.truthy characterSex)
              "Missing required fields" in
  let* email := invariantString email "Email must be a string" in
  let* password := invariantString password "Password must be a string" in
  let* characterName := invariantString characterName "Name must be a string" in
  let* characterSex := invariantString characterSex "Name must be a string" in
  let characterSexValue := parsePlayerSex characterSex in
  let characterPronounsValue := parsePlayerPronoun characterPronouns in
  let email := Str.toLowerCase email in
  let* account := accountsFindUnique email in
  match account with
  | Some _ =>
      ret {| status := 400; invalid := None;
             errors := {[ js "email" := [js "Email is already taken"] ]} |}
  | None =>
  let hashedPassword := hashPassword password in
  let characterInput :=
    generateCharacterInput characterName characterPronounsValue
      characterSexValue in
  let* existingPlayer := playersFindFirst characterName in
  match existingPlayer with
  | Some _ =>
      ret {| status := 400; invalid := None;
             errors := {[ js "characterName" :=
                            [js "Character name is already taken"] ]} |}
  | None =>
  let* today := dateNow in
  let* created := accountsCreate
    {| data_email := email;
       data_password := hashedPassword;
       data_players := [ {| create_input := characterInput;
                            create_is_main := true |} ];
       data_expires := (today + thirtyDays)%Z |} in
  match created_emailVerification created with
  | None =>
      ret {| status := 400; invalid := None;
             errors := {[ js "global" := [js "Failed to create account"] ]} |}
  | Some emailVerification =>
  let* _ := sendVerificationEmail (created_email created)
              (verification_token emailVerification) in
  throw (Redirect (js "/account/login") (js "success")
           (js "Account created. Check your email to confirm your account."))
  end end end.

End Default.
End actions.

(** ** What the specification speaks of *)

Section Results.
Context {U : Unicode} {W : Type}.

(** What a call that did not throw answered. *)
Definition answered (o : outcome (option jsstring)) : option jsstring :=
  match o with
  | Return answer => answer
  | Throw _ => None
  end.

(** No validator of the rule set throws on the value of its field. *)
Definition validatorsAnswer (rules : list (jsstring * list (@Validator W)))
  (data : FormData) : Prop :=
  ∀ key validators validator w,
    (key, validators) ∈ rules → validator ∈ validators →
    ∃ answer, fst (validator (formGet data key) w) = Return answer.

(** Every validator of a field called once, in order, on the field's
    value: the answers and the world after the last call. *)
Fixpoint fieldResults (validators : list (@Validator W)) (value : Value)
  (w : W) : list (option jsstring) * W :=
  match validators with
  | [] => ([], w)
  | validator :: rest =>
      let w' := snd (validator value w) in
      (answered (fst (validator value w)) :: fst (fieldResults rest value w'),
       snd (fieldResults rest value w'))
  end.

(** The same for every field of the rule set, in order. *)
Fixpoint allResults (rules : list (jsstring * list (@Validator W)))
  (data : FormData) (w : W)
  : list (jsstring * list (option jsstring)) * W :=
  match rules with
  | [] => ([], w)
  | (key, validators) :: rest =>
      let w' := snd (fieldResults validators (formGet data key) w) in
      ((key, fst (fieldResults validators (formGet data key) w))
         :: fst (allResults rest data w'),
       snd (allResults rest data w'))
  end.

(** A validator's answer counts as an error when it is a non-empty
    string. *)
Definition isError (answer : option jsstring) : bool :=
  match answer with
  | Some (_ :: _) => true
  | _ => false
  end.

(** The messages a field's answers leave in the report. *)
Fixpoint reported (key : jsstring) (answers : list (option jsstring))
  : list jsstring :=
  match answers with
  | [] => []
  | Some ((_ :: _) as message) :: rest =>
      Str.replace message (js ":field") (toProperCase key) :: reported key rest
  | _ :: rest => reported key rest
  end.

(** The answers of a field that count as errors, as the validators gave
    them. *)
Fixpoint errorMessages (answers : list (option jsstring)) : list jsstring :=
  match answers with
  | [] => []
  | Some ((_ :: _) as message) :: rest => message :: errorMessages rest
  | _ :: rest => errorMessages rest
  end.

(** The report after a field's messages have been pushed. *)
Definition extended (key : jsstring) (messages : list jsstring)
  (errors : Report) : Report :=
  match messages with
  | [] => errors
  | _ :: _ => <[key := default [] (errors !! key) ++ messages]> errors
  end.

(** The report after the messages of every field have been pushed. *)
Fixpoint gathered (runs : list (jsstring * list (option jsstring)))
  (errors : Report) : Report :=
  match runs with
  | [] => errors
  | (key, answers) :: rest =>
      gathered rest (extended key (reported key answers) errors)
  end.

(** The report has a key for a field exactly when one of the field's
    validators answered something other than [null]. *)
Definition keyed_iff_non_null (rules : list (jsstring * list (@Validator W)))
  (data : FormData) (w : W) : Prop :=
  ∃ report, fst (validate rules data w) = Return report ∧
    ∀ key answers, (key, answers) ∈ fst (allResults rules data w) →
      (is_Some (report !! key) ↔ ∃ message, Some message ∈ answers).

End Results.

Section NamePolicy.
Context {U : Unicode} {C : Collaborators}.

(** Capitalized-word form: in every run of non-space characters the
    first is an upper-case letter and no other is. *)
Fixpoint capitalizedWords (atStart : bool) (s : jsstring) : bool :=
  match s with
  | [] => true
  | c :: rest =>
      if Char.isSpace c then capitalizedWords true rest
      else (if atStart then Char.isUpperAZ c else negb (Char.isUpperAZ c))
           && capitalizedWords false rest
  end.

Definition capitalizedWordForm (s : jsstring) : bool :=
  capitalizedWords true s.

(** No match of [\w\S*] starts with a lower-case letter. *)
Fixpoint noLowerStart (inMatch : bool) (s : jsstring) : bool :=
  match s with
  | [] => true
  | c :: rest =>
      if inMatch then noLowerStart (negb (Char.isSpace c)) rest
      else if Char.isWord c
           then negb (Char.isLowerAZ c) && noLowerStart true rest
           else noLowerStart false rest
  end.

(** Steps 2 to 7 of the character-name policy all pass. *)
Definition passesShape (value : jsstring) : bool :=
  negb (length value <? 3)%nat
  && negb (20 <? length value)%nat
  && Str.eqb (toTitleCase value) value
  && negb (existsb (fun prefix => Str.startsWith (Str.toLowerCase value) prefix)
             BLOCKD_PREFIXES)
  && negb (existsb (fun blockedName => Str.includes (Str.toLowerCase value) blockedName)
             BLOCKED_WORDS)
  && Str.eqb (Str.trim value) value
  && namePattern (Str.toLowerCase value).

(** The fields the action requires are non-empty strings. *)
Definition requiredStrings (data : FormData)
  (email password characterName characterSex : jsstring) : Prop :=
  formGet data (js "email") = VString email ∧ email ≠ [] ∧
  formGet data (js "password") = VString password ∧ password ≠ [] ∧
  formGet data (js "characterName") = VString characterName ∧
  characterName ≠ [] ∧
  formGet data (js "characterSex") = VString characterSex ∧
  characterSex ≠ [].

(** What validators read: the messages and the database. *)
Definition readByValidators (w : World) :=
  (translate w, database w).

End NamePolicy.

(** ** A sample installation, to run the code on *)

Module Sample.

Definition collaborators : Collaborators :=
  {| PUBLIC_TITLE := js "SlenderAAC";
     Sex := jsstring;
     Pronoun := Value;
     parsePlayerSex := fun s => s;
     parsePlayerPronoun := fun v => v;
     Attributes := unit;
     startingAttributes := fun _ _ _ => tt;
     hashPassword := fun p => 35 :: p;
     defaultToken := fun n => js "token" ++ [48 + N.of_nat n];
     (* a case-insensitive collation *)
     collates := fun a b =>
       Str.eqb (@Str.toLowerCase asciiOnly a) (@Str.toLowerCase asciiOnly b) |}.

(** Without a dictionary the lookup answers the key itself. *)
Definition world : @World collaborators :=
  {| translate := fun key _ => key;
     database := {| monsters := [js "Rat"]; accounts := []; players := [];
                    emailVerifications := [] |};
     now := 1700000000000%Z;
     outbox := [];
     queries := [] |}.

Definition form (email password confirmation name sex : string) : FormData :=
  [ (js "email", VString (js email));
    (js "password", VString (js password));
    (js "passwordConfirmation", VString (js confirmation));
    (js "characterName", VString (js name));
    (js "characterSex", VString (js sex)) ].

(** A validator whose message is the empty string. *)
Definition emptyMessage : @Validator unit := fun _ w => (Return (Some []), w).

(** A validator that fails with a fixed message. *)
Definition failing (message : string) : @Validator unit :=
  fun _ w => (Return (Some (js message)), w).

End Sample.

(** ** More of [$lib/utils]: [groupBy] *)

Section GroupBy.
Context {T : Type}.

(** [propertyKey x] is the property name that [currentValue[key]] stands
    for when it indexes [result]. *)
Variable propertyKey : T -> jsstring.

(** One round of the reducer:
    [(result[currentValue[key]] ??= []).push(currentValue)].  Under an
    inherited name the read is not nullish, nothing is assigned and [push]
    is not a function. *)
Definition groupStep (result : gmap jsstring (list T)) (currentValue : T)
  : outcome (gmap jsstring (list T)) :=
  match result !! propertyKey currentValue with
  | Some group =>
      Return (<[propertyKey currentValue := group ++ [currentValue]]> result)
  | None =>
      if Js.inherited (propertyKey currentValue) then Throw TypeError
      else Return (<[propertyKey currentValue := [currentValue]]> result)
  end.

(** [array.reduce(..., result)] *)
Fixpoint groupInto (array : list T) (result : gmap jsstring (list T))
  : outcome (gmap jsstring (list T)) :=
  match array with
  | [] => Return result
  | currentValue :: rest =>
      match groupStep result currentValue with
      | Return result' => groupInto rest result'
      | Throw e => Throw e
      end
  end.

Definition groupBy (array : list T) : outcome (gmap jsstring (list T)) :=
  groupInto array ∅.

End GroupBy.

(** ** [getAvailableTowns] *)

Record Town := {
  town_id : Z;
  town_name : jsstring;
}.

(** [getAvailableTowns], from the rows that
    [prisma.towns.findMany({ where: { starter: true }, select: ... })]
    answered on.  After [towns.slice(1)] an empty array has no [towns[0]]
    to assign to. *)
Definition getAvailableTowns (found : list Town) : outcome (list Town) :=
  let towns :=
    if (0 <? length found)%nat then found
    else [ {| town_id := 8; town_name := js "thais" |} ] in
  match towns with
  | [] => Throw TypeError
  | first :: rest =>
      if Str.eqb (town_name first) (js "Dawnport Tutorial") then
        match rest with
        | [] => Throw TypeError
        | second :: others =>
            Return ({| town_id := 1; town_name := town_name second |} :: others)
        end
      else Return towns
  end.

(** ** The account layout's [load] *)

(** A [Date]: its time value in milliseconds, or invalid (time value NaN). *)
Inductive Date :=
| InvalidDate
| DateAt (time : Z).

(** A number that is an integer or NaN. *)
Abbreviation number := (option Z).

(** [date.getTime()] *)
Definition getTime (date : Date) : number :=
  match date with
  | InvalidDate => None
  | DateAt time => Some time
  end.

(** [Math.max(a, b)] *)
Definition mathMax (a b : number) : number :=
  match a, b with
  | Some x, Some y => Some (Z.max x y)
  | _, _ => None
  end.

(** [new Date(value)], with its clip to 8.64e15 milliseconds either way. *)
Definition newDate (value : number) : Date :=
  match value with
  | Some time =>
      if (Z.abs time <=? 8640000000000000)%Z then DateAt time else InvalidDate
  | None => InvalidDate
  end.

(** [characters.reduce((acc, cur) =>
       Math.max(acc, cur.lastLogin?.getTime() ?? 0), 0)],
    over the [lastLogin] of each character. *)
Definition latestLogin (lastLogins : list (option Date)) : number :=
  foldl (fun acc lastLogin =>
           mathMax acc (match lastLogin with
                        | Some date => getTime date
                        | None => Some 0%Z
                        end))
    (Some 0%Z) lastLogins.

(** The [lastLogin] of the account info. *)
Definition accountLastLogin (lastLogins : list (option Date)) : Date :=
  newDate (latestLogin lastLogins).

(** ** Rule sets whose validators only answer *)

Section PureRules.
Context {U : Unicode} {W : Type}.

(** Every validator of the rule set answers and leaves the world as it
    is. *)
Definition pureRules (rules : list (jsstring * list (@Validator W))) : Prop :=
  ∀ key validators validator value w,
    (key, validators) ∈ rules → validator ∈ validators →
    snd (validator value w) = w
    ∧ ∃ answer, fst (validator value w) = Return answer.

(** The answers of a rule's validators, each called in the world [w]. *)
Definition answersOf (data : FormData) (w : W)
  (rule : jsstring * list (@Validator W)) : jsstring * list (option jsstring) :=
  (rule.1, List.map (fun validator : Validator =>
                       answered (fst (validator (formGet data rule.1) w)))
             rule.2).

End PureRules.

(** ** [debounce]

    The debounced function runs on the timers of the host: [setTimeout]
    registers a callback under a fresh positive id, to run once, not before
    its delay has passed; [clearTimeout] drops it.  The state holds the
    clock, the timers this function has set, the variable [timeout] of its
    closure, and the runs of [func]. *)

Section Debounce.
Context {A : Type}.    (* what [func] is called on *)

Record Debounced := {
  clock : N;                             (* milliseconds *)
  timers : gmap positive (N * A);        (* id to due time and [args] *)
  nextTimer : positive;                  (* the id [setTimeout] answers next *)
  timeout : option positive;
  runs : list (N * A);                   (* when [func] ran, and on what *)
}.

(** The delay [setTimeout] takes from its second argument, a whole number
    of milliseconds here: from 1 to 2147483647 the number itself (on every
    host), and outside this range 1 (as Node.js does). *)
Definition timerDelay (wait : N) : N :=
  if ((1 <=? wait) && (wait <=? 2147483647))%N then wait else 1%N.

(** A call of the function that [debounce(func, wait)] returned:
    [timeout && clearTimeout(timeout); timeout = setTimeout(later, wait)]. *)
Definition debounced (wait : N) (args : A) (s : Debounced) : Debounced :=
  let kept := match timeout s with
              | Some id => delete id (timers s)
              | None => timers s
              end in
  {| clock := clock s;
     timers := <[nextTimer s := ((clock s + timerDelay wait)%N, args)]> kept;
     nextTimer := Pos.succ (nextTimer s);
     timeout := Some (nextTimer s);
     runs := runs s |}.

(** The host runs the callback under [id], if it is set and due:
    [later] does [timeout = null; func(...args)]. *)
Definition fire (id : positive) (s : Debounced) : option Debounced :=
  match timers s !! id with
  | Some (due, args) =>
      if (due <=? clock s)%N then
        Some {| clock := clock s;
                timers := delete id (timers s);
                nextTimer := nextTimer s;
                timeout := None;
                runs := runs s ++ [(clock s, args)] |}
      else None
  | None => None
  end.

(** Time passes. *)
Definition elapse (ms : N) (s : Debounced) : Debounced :=
  {| clock := (clock s + ms)%N; timers := timers s;
     nextTimer := nextTimer s;
     timeout := timeout s; runs := runs s |}.

Inductive Event :=
| Call (args : A)
| Elapse (ms : N)
| Fire (id : positive).

Definition step (wait : N) (s : Debounced) (e : Event) : option Debounced :=
  match e with
  | Call args => Some (debounced wait args s)
  | Elapse ms => Some (elapse ms s)
  | Fire id => fire id s
  end.

Fixpoint run (wait : N) (events : list Event) (s : Debounced)
  : option Debounced :=
  match events with
  | [] => Some s
  | e :: rest =>
      match step wait s e with
      | Some s' => run wait rest s'
      | None => None
      end
  end.

(** Right after [debounce(func, wait)]. *)
Definition fresh (time : N) : Debounced :=
  {| clock := time; timers := ∅; nextTimer := 1%positive; timeout := None;
     runs := [] |}.

(** At most one timer is set, the one [timeout] names. *)
Definition oneTimer (s : Debounced) : Prop :=
  match timeout s with
  | Some id => ∃ entry, timers s = {[ id := entry ]}
  | None => timers s = ∅
  end.

(** The runs of [func] still to come: one while a timer is set. *)
Definition pending (s : Debounced) : nat :=
  match timeout s with Some _ => 1 | None => 0 end.

(** The calls among the events. *)
Definition callCount (events : list Event) : nat :=
  length (List.filter (fun e => match e with Call _ => true | _ => false end)
            events).

End Debounce.

(** ** The code on sample inputs *)

Section Checks.
#[local] Existing Instance asciiOnly.
#[local] Existing Instance Sample.collaborators.

Example toProperCase_characterName :
  toProperCase (js "characterName") = js "Character name".
Proof. reflexivity. Qed.

Example toProperCase_passwordConfirmation :
  toProperCase (js "passwordConfirmation") = js "Password confirmation".
Proof. reflexivity. Qed.

Example toTitleCase_words :
  toTitleCase (js "von der-leyen  o'neil") = js "Von Der-leyen  O'neil".
Proof. reflexivity. Qed.

Example toTitleCase_keeps_capitals :
  toTitleCase (js "mcDonald") = js "McDonald".
Proof. reflexivity. Qed.

Example replace_first_only :
  Str.replace (js "a-b-c") (js "-") (js "+") = js "a+b-c".
Proof. reflexivity. Qed.

Example replace_patterns :
  Str.replace (js "a-b") (js "-") (js "[$$|$&|$`|$'|$1]")
  = js "a[$|-|a|b|$1]b".
Proof. reflexivity. Qed.

Example trim_both_ends :
  Str.trim (js "  Von Der  ") = js "Von Der".
Proof. reflexivity. Qed.

Example emailPattern_accepts :
  emailPattern (js "User@Example.com") = true.
Proof. reflexivity. Qed.

Example emailPattern_rejects :
  emailPattern (js "user@example") = false
  ∧ emailPattern (js "a@b@c.d") = false
  ∧ emailPattern (js "@example.com") = false
  ∧ emailPattern (js "user@.com") = false.
Proof. repeat split. Qed.

Example prefix_blocked :
  fst (characterNameValidator (VString (js "Gmfoo")) Sample.world)
  = Return (Some (js "validations.blocked-words")).
Proof. reflexivity. Qed.

Example slug_accepted :
  fst (slugValidator (VString (js "my-guild-01")) Sample.world) = Return None.
Proof. reflexivity. Qed.

Example slug_needs_a_string :
  fst (slugValidator VNull Sample.world)
  = Throw (InvariantFailed (js "Slug must be a string")).
Proof. reflexivity. Qed.

Example name_accepted :
  characterNameValidator (VString (js "Gregory")) Sample.world
  = (Return None, logged (MonstersCount (js "Gregory")) Sample.world).
Proof. reflexivity. Qed.

(** An empty form: every field reports every failing validator, in
    order. *)
Example validate_empty_form :
  ∃ report,
    fst (validate (registrationRules VNull) [] Sample.world) = Return report
    ∧ report !! js "email"
      = Some [js "validations.required"; js "validations.string"]
    ∧ report !! js "password" = Some [js "validations.required"]
    ∧ report !! js "passwordConfirmation" = Some [js "validations.required"]
    ∧ report !! js "characterName"
      = Some [js "validations.required"; js "validations.string"]
    ∧ report !! js "characterSex" = Some [js "validations.required"].
Proof. eexists. split; [reflexivity|]. repeat split. Qed.

End Checks.

(** ** Properties of the string helpers *)

Section StringFacts.
Context {U : Unicode}.

Lemma toUpperCase_ascii (c : N) :
  Char.isAscii c = true → Str.toUpperCase [c] = [Char.toUpper c].
Proof. intros H. unfold Str.toUpperCase. simpl. by rewrite H. Qed.

Lemma isWord_ascii (c : N) : Char.isWord c = true → Char.isAscii c = true.
Proof.
  unfold Char.isWord, Char.isUpperAZ, Char.isLowerAZ, Char.isDigit,
    Char.isAscii.
  intros H. apply N.ltb_lt.
  repeat (apply orb_prop in H; destruct H as [H|H]);
    try (apply andb_prop in H; destruct H as [_ H]; apply N.leb_le in H; lia).
  apply N.eqb_eq in H. lia.
Qed.

Lemma isSpace_not_word (c : N) :
  Char.isSpace c = true → Char.isWord c = false.
Proof.
  unfold Char.isSpace, Char.isWord, Char.isUpperAZ, Char.isLowerAZ,
    Char.isDigit.
  intros H.
  repeat (apply orb_prop in H; destruct H as [H|H]);
    try (apply andb_prop in H; destruct H as [H1 H2];
         apply N.leb_le in H1; apply N.leb_le in H2);
    try apply N.eqb_eq in H;
    repeat (apply orb_false_intro);
    try (apply andb_false_iff; rewrite !N.leb_gt; lia);
    apply N.eqb_neq; lia.
Qed.

Lemma toUpper_fixed (c : N) :
  Char.toUpper c = c ↔ Char.isLowerAZ c = false.
Proof.
  unfold Char.toUpper. destruct (Char.isLowerAZ c) eqn:E; [|done].
  split; [|done]. intros H. exfalso.
  unfold Char.isLowerAZ in E. apply andb_prop in E as [E _].
  apply N.leb_le in E. lia.
Qed.

Lemma isUpperAZ_word (c : N) :
  Char.isUpperAZ c = true → Char.isWord c = true ∧ Char.isLowerAZ c = false.
Proof.
  intros H. unfold Char.isWord. rewrite H. split; [done|].
  unfold Char.isUpperAZ in H. apply andb_prop in H as [_ H].
  apply N.leb_le in H. unfold Char.isLowerAZ.
  apply andb_false_iff. left. apply N.leb_gt. lia.
Qed.

(** [toTitleCase] leaves a text alone exactly when no match starts with
    a lower-case letter. *)
Lemma titleWords_fixed (s : jsstring) : ∀ inMatch,
  titleWords inMatch s = s ↔ noLowerStart inMatch s = true.
Proof.
  induction s as [|c s IH]; intros inMatch; simpl; [done|].
  destruct inMatch.
  - rewrite <- IH. split; [by intros [=]|by intros ->].
  - destruct (Char.isWord c) eqn:Ew.
    + rewrite (toUpperCase_ascii c (isWord_ascii c Ew)). simpl.
      rewrite andb_true_iff, negb_true_iff, <- IH, <- toUpper_fixed.
      split; [intros [= H1 H2]; by rewrite H1|intros [-> ->]; done].
    + rewrite <- IH. split; [by intros [=]|by intros ->].
Qed.

Lemma capitalizedWords_fixed (s : jsstring) : ∀ atStart,
  capitalizedWords atStart s = true → titleWords (negb atStart) s = s.
Proof.
  induction s as [|c s IH]; intros atStart; simpl; [done|].
  destruct (Char.isSpace c) eqn:Es.
  - intros H. rewrite (isSpace_not_word c Es).
    destruct atStart; simpl; f_equal; apply (IH true H).
  - intros H. apply andb_prop in H as [Hc H].
    destruct atStart; simpl.
    + destruct (isUpperAZ_word c Hc) as [Hw Hl]. rewrite Hw.
      rewrite (toUpperCase_ascii c (isWord_ascii c Hw)). simpl.
      rewrite (proj2 (toUpper_fixed c) Hl). f_equal. apply (IH false H).
    + f_equal. apply (IH false H).
Qed.

Lemma eqb_true (s t : jsstring) : Str.eqb s t = true ↔ s = t.
Proof. unfold Str.eqb. apply bool_decide_eq_true. Qed.

Lemma eqb_false (s t : jsstring) : Str.eqb s t = false ↔ s ≠ t.
Proof. unfold Str.eqb. apply bool_decide_eq_false. Qed.

End StringFacts.

(** ** The character-name policy *)

Section NamePolicyFacts.
Context {U : Unicode} {C : Collaborators}.

(** Step 2 answers at once: nothing after it is evaluated and no monster
    is counted. *)
Lemma characterName_too_short (value : jsstring) (w : World) :
  (length value < 3)%nat →
  characterNameValidator (VString value) w
  = (Return (Some (translate w (js "validations.min-length") [(js "min", 3%Z)])), w).
Proof.
  intros H. unfold characterNameValidator.
  by rewrite (proj2 (Nat.ltb_lt _ _) H).
Qed.

(** Step 3 answers the casing message when the title-cased text differs. *)
Lemma characterName_casing (value : jsstring) (w : World) :
  (3 ≤ length value ≤ 20)%nat →
  toTitleCase value ≠ value →
  characterNameValidator (VString value) w
  = (Return (Some (translate w (js "validations.title-case") [])), w).
Proof.
  intros [H1 H2] H. unfold characterNameValidator.
  rewrite (proj2 (Nat.ltb_ge _ _) H1), (proj2 (Nat.ltb_ge _ _) H2).
  by rewrite (proj2 (eqb_false _ _) H).
Qed.


Lemma monstersCount_matching (monster value : jsstring) (w : World) :
  monster ∈ monsters (database w) →
  sameName monster value = true →
  (0 <? fst (monstersCount value w))%nat = true.
Proof.
  intros H Hsame. unfold monstersCount. cbn [fst].
  induction (monsters (database w)) as [|m l IH]; [by apply elem_of_nil in H|].
  cbn [List.filter]. apply elem_of_cons in H as [<-|H].
  - rewrite Hsame. done.
  - destruct (sameName m value); cbn [length]; [done|by apply IH].
Qed.

Lemma monstersCount_positive (value : jsstring) (w : World) :
  value ∈ monsters (database w) →
  (0 <? fst (monstersCount value w))%nat = true.
Proof.
  intros H. apply (monstersCount_matching value value w H).
  unfold sameName. by rewrite (proj2 (eqb_true _ _) eq_refl).
Qed.

(** Whatever the answer, the validator changes nothing but the log, and
    adds at most its own count to it. *)
Lemma characterName_world (value : Value) (w : World) :
  snd (characterNameValidator value w) = w
  ∨ ∃ name, value = VString name
            ∧ snd (characterNameValidator value w) = logged (MonstersCount name) w.
Proof.
  destruct value as [|value|]; [by left| |by left].
  unfold characterNameValidator.
  repeat match goal with
         | |- context [if ?b then _ else _] =>
             destruct b; [by left|]
         end.
  right. exists value. split; [done|].
  destruct (monstersCount value w) as [count w'] eqn:E.
  injection E as _ <-. by destruct (0 <? count)%nat.
Qed.

(** The monster count, the one step with an effect, is reached only when
    every earlier step has passed. *)
Lemma characterName_counts_when_shaped (value : Value) (w : World) :
  queries (snd (characterNameValidator value w)) ≠ queries w →
  ∃ name, value = VString name ∧ passesShape name = true.
Proof.
  destruct value as [|name|]; [done| |done].
  intros H. exists name. split; [done|]. revert H.
  unfold characterNameValidator, passesShape.
  repeat match goal with
         | |- context [if ?b then _ else _] =>
             destruct b eqn:?; [by intros []|]
         end.
  intros _.
  repeat match goal with
         | H : negb _ = false |- _ => apply negb_false_iff in H
         end.
  repeat match goal with
         | H : _ = _ |- _ => rewrite H; clear H
         end.
  done.
Qed.

End NamePolicyFacts.

(** C6: for the character name ["ad"] the validator answers exactly the
    minimum-length message (one answer, by its type) and leaves the world as
    it was: no later step ran, no monster was counted.  For every input, the
    monster count of the last step is made only when all steps before it have
    passed. *)
Theorem characterName_ad `{U : Unicode, C : Collaborators} (w : World) :
  characterNameValidator (VString (js "ad")) w
  = (Return (Some (translate w (js "validations.min-length") [(js "min", 3%Z)])),
     w)
  ∧ ∀ value,
      queries (snd (characterNameValidator value w)) ≠ queries w →
      ∃ name, value = VString name ∧ passesShape name = true.
Proof.
  split; [apply characterName_too_short; simpl; lia|].
  intros value. apply characterName_counts_when_shaped.
Qed.

Lemma characterName_ad_witness :
  fst (@characterNameValidator asciiOnly Sample.collaborators
         (VString (js "ad")) Sample.world)
  = Return (Some (js "validations.min-length"))
  ∧ passesShape (U := asciiOnly) (C := Sample.collaborators) (js "Gregory")
    = true.
Proof.
  destruct (@characterName_ad asciiOnly Sample.collaborators Sample.world)
    as [Had Hcount].
  split; [by rewrite Had|].
  destruct (Hcount (VString (js "Gregory"))) as (name & Hname & Hshape).
  - vm_compute. discriminate.
  - injection Hname as <-. exact Hshape.
Defined.

(** C3, as the code has it: ["Gamemaster"] and ["GAMEMASTER"] fail with the
    blocked-content message; ["gamemaster"] fails one step earlier, with the
    casing message. *)
Theorem gamemaster_spellings `{U : Unicode, C : Collaborators} (w : World) :
  characterNameValidator (VString (js "Gamemaster")) w
  = (Return (Some (translate w (js "validations.blocked-words") [])), w)
  ∧ characterNameValidator (VString (js "GAMEMASTER")) w
    = (Return (Some (translate w (js "validations.blocked-words") [])), w)
  ∧ characterNameValidator (VString (js "gamemaster")) w
    = (Return (Some (translate w (js "validations.title-case") [])), w).
Proof. repeat split; reflexivity. Qed.

(** C3 fails at ["gamemaster"]: in the sample world the answer is not the
    blocked-content message. *)
Lemma gamemaster_lower_case_not_blocked :
  fst (@characterNameValidator asciiOnly Sample.collaborators
         (VString (js "gamemaster")) Sample.world)
  ≠ Return (Some (translate Sample.world (js "validations.blocked-words") [])).
Proof. vm_compute. discriminate. Qed.

(** C4, as the code has it: for a string of 3 to 20 code units the casing
    step fails, with the casing message, exactly when the text differs from
    its title-cased transform, that is when some match of [\w\S*] starts
    with a lower-case letter; the rest of a word is not looked at.  A text
    in capitalized-word form passes; a text that passes goes on to a later
    step's answer. *)
Theorem casing_step `{U : Unicode, C : Collaborators}
  (value : jsstring) (w : World) :
  (3 ≤ length value ≤ 20)%nat →
  (toTitleCase value = value ↔ noLowerStart false value = true)
  ∧ (capitalizedWordForm value = true → toTitleCase value = value)
  ∧ (toTitleCase value ≠ value →
     characterNameValidator (VString value) w
     = (Return (Some (translate w (js "validations.title-case") [])), w))
  ∧ (toTitleCase value = value →
     fst (characterNameValidator (VString value) w)
     ∈ [ Return (Some (translate w (js "validations.blocked-words") []));
         Return (Some (translate w (js "validations.name") []));
         Return (Some (translate w (js "validations.name-monster") []));
         Return None ]).
Proof.
  intros Hlen. split; [apply titleWords_fixed|].
  split; [apply (capitalizedWords_fixed value true)|].
  split; [by apply characterName_casing|].
  intros Heq. destruct Hlen as [H1 H2]. unfold characterNameValidator.
  rewrite (proj2 (Nat.ltb_ge _ _) H1), (proj2 (Nat.ltb_ge _ _) H2).
  rewrite (proj2 (eqb_true _ _) Heq). simpl.
  repeat match goal with
         | |- context [if ?b then _ else _] =>
             destruct b; [simpl; set_solver|]
         end.
  destruct (monstersCount value w) as [count w'] eqn:E.
  injection E as _ <-. destruct (0 <? count)%nat; simpl; set_solver.
Qed.

Lemma casing_step_witness :
  (3 ≤ length (js "Von Der-leyen") ≤ 20)%nat
  ∧ (@toTitleCase asciiOnly (js "Von Der-leyen") = js "Von Der-leyen"
     ↔ noLowerStart false (js "Von Der-leyen") = true).
Proof.
  assert (H : (3 ≤ length (js "Von Der-leyen") ≤ 20)%nat) by (simpl; lia).
  split; [exact H|].
  exact (proj1 (@casing_step asciiOnly Sample.collaborators
                  (js "Von Der-leyen") Sample.world H)).
Defined.

(** C4 fails at ["GAMEMASTER"]: the text is not in capitalized-word form,
    yet the casing step lets it through (the answer in the sample world is
    not the casing message). *)
Lemma upper_case_passes_casing :
  (3 ≤ length (js "GAMEMASTER") ≤ 20)%nat
  ∧ capitalizedWordForm (js "GAMEMASTER") = false
  ∧ @toTitleCase asciiOnly (js "GAMEMASTER") = js "GAMEMASTER"
  ∧ fst (@characterNameValidator asciiOnly Sample.collaborators
           (VString (js "GAMEMASTER")) Sample.world)
    ≠ Return (Some (translate Sample.world (js "validations.title-case") [])).
Proof.
  split; [simpl; lia|]. split; [reflexivity|]. split; [reflexivity|].
  vm_compute. discriminate.
Qed.

(** ** The engine *)

Section EngineFacts.
Context {U : Unicode} {W : Type}.
Implicit Types (errors : Report) (w : W) (key : jsstring).

Lemma pushError_fresh key message errors w :
  Js.inherited key = false →
  @pushError W key message errors w
  = (Return (extended key [message] errors), w).
Proof.
  intros H. unfold pushError, extended.
  destruct (errors !! key); simpl; [done|]. by rewrite H.
Qed.

Lemma extended_cons key message messages errors :
  extended key messages (extended key [message] errors)
  = extended key (message :: messages) errors.
Proof.
  destruct messages as [|m l]; [done|]. unfold extended.
  rewrite lookup_insert_eq, insert_insert_eq. simpl.
  by rewrite <- app_assoc.
Qed.

Lemma validateField_results key value validators : ∀ errors w,
  Js.inherited key = false →
  (∀ validator w, validator ∈ validators →
     ∃ answer, fst (validator value w) = Return answer) →
  validateField key value validators errors w
  = (Return (extended key (reported key (fst (fieldResults validators value w)))
               errors),
     snd (fieldResults validators value w)).
Proof.
  induction validators as [|validator rest IH]; intros errors w Hk Ha; [done|].
  assert (∀ validator w, validator ∈ rest →
            ∃ answer, fst (validator value w) = Return answer) as Hrest
    by (intros v w' Hv; apply Ha; by right).
  destruct (Ha validator w) as [error He]; [by left|].
  simpl. unfold bind at 1.
  destruct (validator value w) as [o w1]. simpl in *. subst o. simpl.
  destruct error as [[|c message]|]; unfold bind; simpl;
    [by rewrite IH| |by rewrite IH].
  rewrite pushError_fresh by done. rewrite IH by done.
  by rewrite extended_cons.
Qed.

Lemma validateEntries_results data rules : ∀ errors w,
  Forall (fun key => Js.inherited key = false) rules.*1 →
  validatorsAnswer rules data →
  validateEntries rules data errors w
  = (Return (gathered (fst (allResults rules data w)) errors),
     snd (allResults rules data w)).
Proof.
  induction rules as [|[key validators] rest IH]; intros errors w Hk Ha;
    [done|].
  apply Forall_cons in Hk as [Hk Hrest]. simpl. unfold bind.
  rewrite validateField_results; [|done|].
  - apply IH; [done|]. intros k vs v w' Hin Hv. apply (Ha k vs); [by right|done].
  - intros v w' Hv. apply (Ha key validators); [by left|done].
Qed.

Lemma allResults_shape data rules : ∀ w,
  Forall2 (fun rule run => run.1 = rule.1 ∧ length run.2 = length rule.2)
    rules (fst (allResults rules data w)).
Proof.
  induction rules as [|[key validators] rest IH]; intros w; simpl;
    constructor; [|apply IH].
  split; [done|]. simpl. generalize (formGet data key). intros value.
  revert w. induction validators as [|v l IHl]; intros w; [done|].
  simpl. by rewrite IHl.
Qed.

Lemma allResults_keys data rules w :
  (fst (allResults rules data w)).*1 = rules.*1.
Proof.
  revert w. induction rules as [|[key validators] rest IH]; intros w; [done|].
  simpl. by rewrite IH.
Qed.

Lemma extended_lookup_ne key key' messages errors :
  key ≠ key' → extended key messages errors !! key' = errors !! key'.
Proof.
  intros H. destruct messages; [done|]. unfold extended.
  by rewrite lookup_insert_ne.
Qed.

Lemma gathered_lookup_other key runs : ∀ errors,
  key ∉ runs.*1 → gathered runs errors !! key = errors !! key.
Proof.
  induction runs as [|[k answers] rest IH]; intros errors Hk; [done|].
  simpl in *. apply not_elem_of_cons in Hk as [Hne Hk].
  rewrite IH by done.
  by apply extended_lookup_ne.
Qed.

Lemma gathered_lookup key answers runs : ∀ errors,
  NoDup runs.*1 → (key, answers) ∈ runs →
  gathered runs errors !! key = extended key (reported key answers) errors !! key.
Proof.
  induction runs as [|[k a] rest IH]; intros errors Hnd Hin;
    [by apply elem_of_nil in Hin|].
  simpl in Hnd. apply NoDup_cons in Hnd as [Hk Hnd].
  apply elem_of_cons in Hin as [[= -> ->]|Hin].
  - simpl. by rewrite (gathered_lookup_other k rest).
  - simpl. rewrite IH by done.
    assert (k ≠ key) as Hne.
    { intros ->. apply Hk. by apply (list_elem_of_fmap_2 fst rest (key, answers)). }
    destruct (reported key answers) as [|m l]; simpl;
      [by apply extended_lookup_ne|].
    rewrite !lookup_insert_eq. by rewrite extended_lookup_ne.
Qed.

Lemma reported_nil key answers :
  reported key answers = [] ↔ ∀ answer, answer ∈ answers → isError answer = false.
Proof.
  induction answers as [|[[|c m]|] rest IH]; simpl.
  - split; [|done]. intros _ answer H. by apply elem_of_nil in H.
  - rewrite IH. split.
    + intros H answer Hin. apply elem_of_cons in Hin as [->|Hin]; auto.
    + intros H answer Hin. apply H. by right.
  - split; [done|]. intros H. specialize (H (Some (c :: m))).
    discriminate H. by left.
  - rewrite IH. split.
    + intros H answer Hin. apply elem_of_cons in Hin as [->|Hin]; auto.
    + intros H answer Hin. apply H. by right.
Qed.

Lemma reported_cons key answers message messages :
  reported key answers = message :: messages →
  ∃ answer, answer ∈ answers ∧ isError answer = true.
Proof.
  induction answers as [|[[|c m]|] rest IH]; simpl; [done| | |].
  - intros H. destruct (IH H) as (a & Ha & He). exists a. split; [by right|done].
  - intros _. exists (Some (c :: m)). split; [by left|done].
  - intros H. destruct (IH H) as (a & Ha & He). exists a. split; [by right|done].
Qed.

(** The engine against the plain reading of the specification. *)
Lemma validate_results rules data w :
  NoDup rules.*1 →
  Forall (fun key => Js.inherited key = false) rules.*1 →
  validatorsAnswer rules data →
  ∃ report,
    validate rules data w = (Return report, snd (allResults rules data w))
    ∧ (∀ key, key ∉ rules.*1 → report !! key = None)
    ∧ ∀ key answers, (key, answers) ∈ fst (allResults rules data w) →
        report !! key = match reported key answers with
                        | [] => None
                        | messages => Some messages
                        end.
Proof.
  intros Hnd Hk Ha. eexists. split; [by apply validateEntries_results|].
  split.
  - intros key Hkey. rewrite gathered_lookup_other; [done|].
    by rewrite allResults_keys.
  - intros key answers Hin.
    rewrite (gathered_lookup key answers); [|by rewrite allResults_keys|done].
    destruct (reported key answers); [done|].
    unfold extended. by rewrite lookup_insert_eq.
Qed.

(** Two runs from worlds that agree on what the validators consult. *)
Lemma validateField_agree {E} (consulted : W → E) key value validators :
  (∀ validator value w1 w2, validator ∈ validators →
     consulted w1 = consulted w2 →
     fst (validator value w1) = fst (validator value w2)
     ∧ consulted (snd (validator value w1)) = consulted w1) →
  ∀ errors w1 w2, consulted w1 = consulted w2 →
    fst (validateField key value validators errors w1)
    = fst (validateField key value validators errors w2)
    ∧ consulted (snd (validateField key value validators errors w1))
      = consulted w1.
Proof.
  induction validators as [|validator rest IH]; intros H errors w1 w2 Hw;
    [done|].
  simpl. unfold bind at 1 3 5.
  destruct (H validator value w1 w2) as [Hfst Hsnd1]; [by left|done|].
  destruct (H validator value w2 w2) as [_ Hsnd2]; [by left|done|].
  destruct (validator value w1) as [o1 w1'], (validator value w2) as [o2 w2'].
  simpl in *. subst o2. destruct o1 as [e1|]; [|done].
  assert (consulted w1' = consulted w2') as Hw' by congruence.
  assert (∀ errors', 
    fst (validateField key value rest errors' w1')
    = fst (validateField key value rest errors' w2')
    ∧ consulted (snd (validateField key value rest errors' w1'))
      = consulted w1) as Hrest.
  { intros errors'. destruct (IH (fun v x y z Hin => H v x y z (list_elem_of_further _ _ _ Hin)) errors' w1' w2' Hw') as [? ?].
    split; [done|congruence]. }
  destruct e1 as [[|c message]|]; unfold bind; simpl; try apply Hrest.
  unfold pushError.
  destruct (errors !! key); simpl; [apply Hrest|].
  destruct (Js.inherited key); simpl; [done|apply Hrest].
Qed.

Lemma validateEntries_agree {E} (consulted : W → E) data rules :
  (∀ key validators validator value w1 w2,
     (key, validators) ∈ rules → validator ∈ validators →
     consulted w1 = consulted w2 →
     fst (validator value w1) = fst (validator value w2)
     ∧ consulted (snd (validator value w1)) = consulted w1) →
  ∀ errors w1 w2, consulted w1 = consulted w2 →
    fst (validateEntries rules data errors w1)
    = fst (validateEntries rules data errors w2)
    ∧ consulted (snd (validateEntries rules data errors w1)) = consulted w1.
Proof.
  induction rules as [|[key validators] rest IH]; intros H errors w1 w2 Hw;
    [done|].
  simpl. unfold bind.
  destruct (validateField_agree consulted key (formGet data key) validators
              (fun v x y z Hin => H key validators v x y z (list_elem_of_here _ _) Hin)
              errors w1 w2 Hw) as [Hfst Hsnd1].
  destruct (validateField_agree consulted key (formGet data key) validators
              (fun v x y z Hin => H key validators v x y z (list_elem_of_here _ _) Hin)
              errors w2 w2 eq_refl) as [_ Hsnd2].
  destruct (validateField key (formGet data key) validators errors w1)
    as [o1 w1'],
    (validateField key (formGet data key) validators errors w2) as [o2 w2'].
  simpl in *. subst o2. destruct o1 as [errors'|e]; [|done].
  destruct (IH (fun k vs v x y z Hin => H k vs v x y z (list_elem_of_further _ _ _ Hin))
              errors' w1' w2') as [? ?]; [congruence|].
  split; [done|congruence].
Qed.

End EngineFacts.

(** ** Replacing the first occurrence *)

Section ReplaceFacts.

Lemma startsWith_prefix (p : jsstring) : ∀ s,
  Str.startsWith s p = true ↔ s = p ++ drop (length p) s.
Proof.
  induction p as [|b p IH]; intros s; simpl.
  - destruct s; simpl; by rewrite ?drop_0.
  - destruct s as [|a s]; [done|]. simpl.
    rewrite andb_true_iff, N.eqb_eq, IH.
    split; [intros [-> H]; by rewrite <- H|intros [= -> H]; by rewrite <- H].
Qed.

Lemma startsWith_app (p rest : jsstring) :
  Str.startsWith (p ++ rest) p = true.
Proof.
  induction p as [|b p IH]; simpl; [by destruct rest|].
  by rewrite N.eqb_refl.
Qed.

Lemma splitFirst_occurrence (p : jsstring) : ∀ s before after,
  Str.splitFirst p s = Some (before, after) → s = before ++ p ++ after.
Proof.
  induction s as [|c s IH]; intros before after; cbn [Str.splitFirst].
  - destruct (Str.startsWith [] p) eqn:E; [|done].
    intros [= <- <-]. apply startsWith_prefix in E. exact E.
  - destruct (Str.startsWith (c :: s) p) eqn:E.
    + intros [= <- <-]. apply startsWith_prefix in E. exact E.
    + destruct (Str.splitFirst p s) as [[b a]|] eqn:Es; [|done].
      intros [= <- <-]. simpl. f_equal. by apply IH.
Qed.

Lemma splitFirst_leftmost (p : jsstring) : ∀ s before after,
  Str.splitFirst p s = Some (before, after) →
  ∀ b a, s = b ++ p ++ a → (length before ≤ length b)%nat.
Proof.
  induction s as [|c s IH]; intros before after; cbn [Str.splitFirst].
  - destruct (Str.startsWith [] p); [|done]. intros [= <- <-] b a _.
    simpl. lia.
  - destruct (Str.startsWith (c :: s) p) eqn:E.
    + intros [= <- <-] b a _. simpl. lia.
    + destruct (Str.splitFirst p s) as [[b0 a0]|] eqn:Es; [|done].
      intros [= <- <-] b a Hs. destruct b as [|c' b]; simpl in Hs.
      * rewrite Hs, startsWith_app in E. discriminate.
      * injection Hs as -> Hs. simpl.
        specialize (IH b0 a0 eq_refl b a Hs). lia.
Qed.

Lemma getSubstitution_plain (matched before after : jsstring) :
  ∀ template, 36 ∉ template →
    Str.getSubstitution matched before after template = template.
Proof.
  induction template as [|c rest IH]; intros H; [done|].
  apply not_elem_of_cons in H as [Hc Hrest]. simpl.
  destruct rest as [|d rest']; [done|].
  rewrite (proj2 (N.eqb_neq c 36)) by done. simpl. f_equal. by apply IH.
Qed.

Lemma replace_first (s p r before after : jsstring) :
  Str.splitFirst p s = Some (before, after) →
  36 ∉ r →
  Str.replace s p r = before ++ r ++ after.
Proof.
  intros Hs Hr. unfold Str.replace. rewrite Hs.
  by rewrite getSubstitution_plain.
Qed.

End ReplaceFacts.

(** ** The rule set of the registration form *)

Section RegistrationRulesFacts.
Context {U : Unicode} {C : Collaborators}.

Lemma reading_consults (f : World → option jsstring) (w1 w2 : World) :
  readByValidators w1 = readByValidators w2 →
  (∀ w w', translate w = translate w' → f w = f w') →
  fst (reading f w1) = fst (reading f w2)
  ∧ readByValidators (snd (reading f w1)) = readByValidators w1.
Proof.
  intros Hw Hf. split; [|done]. simpl. f_equal. apply Hf.
  by injection Hw.
Qed.

Lemma characterName_answers (value : Value) (w : World) :
  ∃ answer, fst (characterNameValidator value w) = Return answer.
Proof.
  destruct value as [|value|]; [by eexists| |by eexists].
  unfold characterNameValidator.
  repeat match goal with
         | |- context [if ?b then _ else _] =>
             destruct b; [by eexists|]
         end.
  destruct (monstersCount value w) as [count w'].
  destruct (0 <? count)%nat; by eexists.
Qed.

(** No validator of the registration form throws. *)
Lemma registrationRules_answer (password : Value) (data : FormData) :
  validatorsAnswer (registrationRules password) data.
Proof.
  intros key validators validator w Hrule Hv.
  unfold registrationRules in Hrule.
  repeat (apply elem_of_cons in Hrule as [[= -> ->]|Hrule]);
    [..|by apply elem_of_nil in Hrule];
    repeat (apply elem_of_cons in Hv as [->|Hv]);
    try (by apply elem_of_nil in Hv);
    try (by apply characterName_answers);
    by eexists.
Qed.

Lemma characterName_consults (value : Value) (w1 w2 : World) :
  readByValidators w1 = readByValidators w2 →
  fst (characterNameValidator value w1) = fst (characterNameValidator value w2)
  ∧ readByValidators (snd (characterNameValidator value w1))
    = readByValidators w1.
Proof.
  intros Hw. injection Hw as Ht Hd.
  destruct value as [|value|]; simpl; rewrite ?Ht; [done| |done].
  repeat match goal with
         | |- context [if ?b then _ else _] =>
             destruct b; [done|]
         end.
  rewrite Hd.
  by destruct (0 <? _)%nat; simpl; rewrite ?Ht.
Qed.

(** The validators of the registration form read the messages and the
    database, and change neither. *)
Lemma registrationRules_consult (password : Value) :
  ∀ key validators validator value w1 w2,
    (key, validators) ∈ registrationRules password →
    validator ∈ validators →
    readByValidators w1 = readByValidators w2 →
    fst (validator value w1) = fst (validator value w2)
    ∧ readByValidators (snd (validator value w1)) = readByValidators w1.
Proof.
  intros key validators validator value w1 w2 Hrule Hv Hw.
  unfold registrationRules in Hrule.
  repeat (apply elem_of_cons in Hrule as [[= -> ->]|Hrule]);
    [..|by apply elem_of_nil in Hrule];
    repeat (apply elem_of_cons in Hv as [->|Hv]);
    try (by apply elem_of_nil in Hv);
    try (by apply characterName_consults);
    apply reading_consults; try done;
    intros w w' Ht; rewrite ?Ht; done.
Qed.

End RegistrationRulesFacts.

(** ** What the engine guarantees *)

(** C1, as the code has it: for a rule set none of whose field names is a
    name inherited from [Object.prototype] and none of whose validators
    throws on the value of its field, [validate] returns a report; its world
    is the one left by calling every validator of every field once, in order,
    on the field's raw value; the report has a key for a field exactly when
    one of the field's validators answered a non-empty message ([null] and
    the empty string both count as no error), and the messages under the key
    are these answers, in the validators' order, each with its first [:field]
    replaced. *)
Theorem validate_report `{U : Unicode} {W : Type}
  (rules : list (jsstring * list (@Validator W))) (data : FormData) (w : W) :
  NoDup rules.*1 →
  Forall (fun key => Js.inherited key = false) rules.*1 →
  validatorsAnswer rules data →
  ∃ report,
    validate rules data w = (Return report, snd (allResults rules data w))
    ∧ Forall2 (fun rule run => run.1 = rule.1 ∧ length run.2 = length rule.2)
        rules (fst (allResults rules data w))
    ∧ (∀ key, key ∉ rules.*1 → report !! key = None)
    ∧ ∀ key answers, (key, answers) ∈ fst (allResults rules data w) →
        (is_Some (report !! key)
         ↔ ∃ answer, answer ∈ answers ∧ isError answer = true)
        ∧ ∀ messages, report !! key = Some messages →
                      messages = reported key answers.
Proof.
  intros Hnd Hk Ha.
  destruct (validate_results rules data w Hnd Hk Ha)
    as (report & Hv & Hout & Hin).
  exists report. split; [done|]. split; [apply allResults_shape|].
  split; [done|]. intros key answers Hrun. rewrite (Hin key answers Hrun).
  split.
  - destruct (reported key answers) as [|m l] eqn:E.
    + split; [by intros [? ?]|]. intros (answer & Hmem & He).
      rewrite (proj1 (reported_nil key answers) E answer Hmem) in He. done.
    + split; [|by eexists]. intros _. by apply (reported_cons key answers m l).
  - destruct (reported key answers); [done|]. by intros messages [= <-].
Qed.

Lemma validate_report_witness :
  let rules := @registrationRules asciiOnly Sample.collaborators
                 (VString (js "secret")) in
  let data := Sample.form "User@Example.com" "secret" "Secret" "ad" "male" in
  NoDup rules.*1
  ∧ Forall (fun key => Js.inherited key = false) rules.*1
  ∧ ∃ report,
      @validate asciiOnly World rules data Sample.world
      = (Return report, snd (allResults rules data Sample.world)).
Proof.
  assert (Hnd : NoDup (@registrationRules asciiOnly Sample.collaborators
                         (VString (js "secret"))).*1)
    by (apply (bool_decide_unpack _); vm_compute; exact I).
  assert (Hk : Forall (fun key => Js.inherited key = false)
                 (@registrationRules asciiOnly Sample.collaborators
                    (VString (js "secret"))).*1)
    by (repeat constructor).
  split; [exact Hnd|]. split; [exact Hk|].
  destruct (@validate_report asciiOnly World
              (registrationRules (VString (js "secret")))
              (Sample.form "User@Example.com" "secret" "Secret" "ad" "male")
              Sample.world Hnd Hk
              (registrationRules_answer (VString (js "secret")) _))
    as (report & Hv & _).
  exists report. exact Hv.
Defined.

(** C1 fails for a validator whose message is the empty string: the answer
    is not [null], yet the report has no key.  It also fails for a field
    named like an inherited property, and for a validator that throws, as
    [slugValidator] does on a missing field: no report is returned. *)
Lemma empty_message_leaves_no_key :
  ¬ @keyed_iff_non_null asciiOnly unit
      [(js "email", [Sample.emptyMessage])] [] tt
  ∧ fst (@validate asciiOnly unit
           [(js "toString", [Sample.failing "required"])] [] tt)
    = Throw TypeError
  ∧ fst (@validate asciiOnly (@World Sample.collaborators)
           [(js "slug", [presenceValidator;
                         @slugValidator asciiOnly Sample.collaborators])]
           [] Sample.world)
    = Throw (InvariantFailed (js "Slug must be a string")).
Proof.
  split; [|split; reflexivity].
  intros (report & Hv & H). injection Hv as <-.
  destruct (H (js "email") [Some []]) as [_ Hkey]; [by left|].
  destruct Hkey as [messages Hm]; [exists []; by left|].
  vm_compute in Hm. discriminate.
Qed.

(** C9: when every validator of the rule set answers by what it consults of
    the world and leaves that part as it was, a second run of [validate] on
    the same rule set and form data, started where the first run ended, gives
    the same outcome as the first: the same report. *)
Theorem validate_twice `{U : Unicode} {W E : Type} (consulted : W → E)
  (rules : list (jsstring * list (@Validator W))) (data : FormData) (w : W) :
  (∀ key validators validator value w1 w2,
     (key, validators) ∈ rules → validator ∈ validators →
     consulted w1 = consulted w2 →
     fst (validator value w1) = fst (validator value w2)
     ∧ consulted (snd (validator value w1)) = consulted w1) →
  fst (validate rules data (snd (validate rules data w)))
  = fst (validate rules data w).
Proof.
  intros H. unfold validate.
  destruct (validateEntries_agree consulted data rules H ∅ w w eq_refl)
    as [_ Hw].
  by destruct (validateEntries_agree consulted data rules H ∅
                 (snd (validateEntries rules data ∅ w)) w Hw).
Qed.


Lemma validate_twice_witness :
  let rules := @registrationRules asciiOnly Sample.collaborators
                 (VString (js "secret")) in
  let data := Sample.form "User@Example.com" "secret" "Secret" "Rat" "male" in
  fst (@validate asciiOnly World rules data
         (snd (@validate asciiOnly World rules data Sample.world)))
  = fst (@validate asciiOnly World rules data Sample.world).
Proof.
  exact (@validate_twice asciiOnly World _ readByValidators
           (registrationRules (VString (js "secret")))
           (Sample.form "User@Example.com" "secret" "Secret" "Rat" "male")
           Sample.world
           (registrationRules_consult (VString (js "secret")))).
Defined.

(** ** The field token in the messages *)

Section TokenFacts.
Context {U : Unicode}.

Lemma getSubstitution_noPattern (matched before after : jsstring) :
  ∀ template, Str.hasPattern template = false →
    Str.getSubstitution matched before after template = template.
Proof.
  induction template as [|c rest IH]; intros H; [done|].
  cbn [Str.getSubstitution Str.hasPattern] in *.
  destruct rest as [|d rest']; [done|].
  apply orb_false_iff in H as [Hcd Hrest]. specialize (IH Hrest).
  destruct (c =? 36) eqn:Ec; cbn [negb andb] in *.
  - apply orb_false_iff in Hcd as [Hcd H39].
    apply orb_false_iff in Hcd as [Hcd H96].
    apply orb_false_iff in Hcd as [H36 H38].
    rewrite H36, H38, H96, H39. by rewrite IH.
  - by rewrite IH.
Qed.

Lemma splitFirst_found (p : jsstring) : ∀ b a,
  is_Some (Str.splitFirst p (b ++ p ++ a)).
Proof.
  induction b as [|c b IH]; intros a.
  - cbn [app]. destruct (p ++ a) as [|x l] eqn:E; cbn [Str.splitFirst];
      rewrite <- ?E, startsWith_app; by eexists.
  - cbn [app Str.splitFirst].
    destruct (Str.startsWith (c :: b ++ p ++ a) p); [by eexists|].
    destruct (IH a) as [[b0 a0] ->]. by eexists.
Qed.

(** The split at the leftmost occurrence is the one [replace] takes. *)
Lemma splitFirst_unique (p s before after : jsstring) :
  s = before ++ p ++ after →
  (∀ b a, s = b ++ p ++ a → (length before ≤ length b)%nat) →
  Str.splitFirst p s = Some (before, after).
Proof.
  intros Hs Hleft.
  destruct (splitFirst_found p before after) as [[b0 a0] Hsplit].
  rewrite <- Hs in Hsplit. rewrite Hsplit.
  pose proof (splitFirst_occurrence _ _ _ _ Hsplit) as Hs0.
  pose proof (splitFirst_leftmost _ _ _ _ Hsplit before after Hs) as H1.
  pose proof (Hleft b0 a0 Hs0) as H2.
  rewrite Hs in Hs0. apply app_inj_1 in Hs0 as [-> Hrest]; [|lia].
  by apply app_inv_head in Hrest as ->.
Qed.

Lemma reported_errorMessages (key : jsstring)
  (answers : list (option jsstring)) :
  reported key answers
  = List.map (fun message =>
                Str.replace message (js ":field") (toProperCase key))
      (errorMessages answers).
Proof.
  induction answers as [|[[|c m]|] rest IH]; cbn [reported errorMessages];
    [done|done| |done].
  cbn [List.map]. by rewrite IH.
Qed.

End TokenFacts.

(** In [validate], for every rule set (with field names that are not
    inherited property names and validators that answer): the messages under
    a field are the error messages of its validators, in order, and in each
    only the leftmost [:field] is replaced; the text before it and the text
    after it, further [:field] tokens included, stay as they were.  What is
    put in is the proper-cased field name read as a replacement text: the
    name itself, as long as it has none of the patterns [$$], [$&], [$`]
    and [$']. *)
Theorem field_token_first_only `{U : Unicode} {W : Type}
  (rules : list (jsstring * list (@Validator W))) (data : FormData) (w : W) :
  NoDup rules.*1 →
  Forall (fun key => Js.inherited key = false) rules.*1 →
  validatorsAnswer rules data →
  ∃ report,
    fst (validate rules data w) = Return report
    ∧ ∀ key answers, (key, answers) ∈ fst (allResults rules data w) →
        Forall2
          (fun message recorded =>
             ∀ before after,
               message = before ++ js ":field" ++ after →
               (∀ b a, message = b ++ js ":field" ++ a →
                       (length before ≤ length b)%nat) →
               recorded
               = before
                 ++ Str.getSubstitution (js ":field") before after
                      (toProperCase key)
                 ++ after
               ∧ (Str.hasPattern (toProperCase key) = false →
                  recorded = before ++ toProperCase key ++ after))
          (errorMessages answers) (default [] (report !! key)).
Proof.
  intros Hnd Hk Ha.
  destruct (validate_results rules data w Hnd Hk Ha)
    as (report & Hv & _ & Hin).
  exists report. split; [by rewrite Hv|]. intros key answers Hrun.
  rewrite (Hin key answers Hrun).
  assert (default [] match reported key answers with
                     | [] => None
                     | messages => Some messages
                     end = reported key answers) as ->
    by (by destruct (reported key answers)).
  rewrite reported_errorMessages.
  induction (errorMessages answers) as [|message rest IH]; cbn [List.map];
    constructor; [|exact IH].
  intros before after Hsplit Hleft.
  unfold Str.replace. rewrite (splitFirst_unique _ _ _ _ Hsplit Hleft).
  split; [done|]. intros Hplain. by rewrite getSubstitution_noPattern.
Qed.

Lemma field_token_first_only_witness :
  ∃ report,
    fst (@validate asciiOnly unit
           [(js "characterName",
             [Sample.failing ":field is not :field"; Sample.emptyMessage;
              Sample.failing "Passwords do not match"]);
            (js "price$", [Sample.failing "The :field is required"])]
           [] tt)
    = Return report
    ∧ report !! js "characterName"
      = Some [js "Character name is not :field"; js "Passwords do not match"]
    ∧ report !! js "price$" = Some [js "The Price$ is required"].
Proof.
  destruct (@field_token_first_only asciiOnly unit
              [(js "characterName",
                [Sample.failing ":field is not :field"; Sample.emptyMessage;
                 Sample.failing "Passwords do not match"]);
               (js "price$", [Sample.failing "The :field is required"])]
              [] tt)
    as (report & Hv & _).
  - apply (bool_decide_unpack _). vm_compute. exact I.
  - repeat constructor.
  - intros key validators validator [] Hrule Hvalidator.
    repeat (apply elem_of_cons in Hrule as [Hrule|Hrule];
            [injection Hrule as -> ->;
             repeat (apply elem_of_cons in Hvalidator as [->|Hvalidator];
                     [by eexists|]);
             by apply elem_of_nil in Hvalidator|]).
    by apply elem_of_nil in Hrule.
  - exists report. split; [exact Hv|].
    injection Hv as <-. split; reflexivity.
Defined.

(** C10 at the field name [$&]: the proper-cased name goes to [replace] as a
    replacement text, in which [$&] stands for the matched text; so the
    first [:field] is replaced by [:field] itself and the name does not
    appear in the message.  (Under a name inherited from [Object.prototype]
    no message is recorded at all.) *)
Theorem dollar_in_field_name :
  fst (@validate asciiOnly unit
         [(js "$&", [Sample.failing ":field is not :field"])] [] tt)
  = Return {[ js "$&" := [js ":field is not :field"] ]}
  ∧ fst (@validate asciiOnly unit
           [(js "valueOf", [Sample.failing ":field is not :field"])] [] tt)
    = Throw TypeError
  ∧ fst (@validate asciiOnly unit
           [(js "$&", [Sample.failing ":field is not :field"])] [] tt)
    ≠ Return {[ js "$&" := [@toProperCase asciiOnly (js "$&")
                              ++ js " is not :field"] ]}.
Proof.
  split; [reflexivity|]. split; [reflexivity|]. intros H.
  apply (f_equal (fun o => match o with
                           | Return report => report !! js "$&"
                           | Throw _ => None
                           end)) in H.
  vm_compute in H. discriminate.
Qed.

(** ** The registration action *)

Section ActionFacts.
Context {U : Unicode} {C : Collaborators}.

Lemma registrationRules_keys (password : Value) :
  NoDup (registrationRules password).*1
  ∧ Forall (fun key => Js.inherited key = false) (registrationRules password).*1.
Proof.
  split; [|by repeat constructor].
  by apply (bool_decide_unpack _); vm_compute.
Qed.

(** Validation of the form changes the world by the name validator only. *)
Lemma registration_world (password : Value) (data : FormData) (w : World) :
  snd (allResults (registrationRules password) data w)
  = snd (characterNameValidator (formGet data (js "characterName")) w).
Proof. reflexivity. Qed.

Lemma registration_validate (password : Value) (data : FormData) (w : World) :
  ∃ report,
    validate (registrationRules password) data w
    = (Return report,
       snd (characterNameValidator (formGet data (js "characterName")) w))
    ∧ ∀ key answers,
        (key, answers) ∈ fst (allResults (registrationRules password) data w) →
        report !! key = match reported key answers with
                        | [] => None
                        | messages => Some messages
                        end.
Proof.
  destruct (registrationRules_keys password) as [Hnd Hk].
  destruct (validate_results (registrationRules password) data w Hnd Hk
              (registrationRules_answer password data))
    as (report & Hv & _ & Hin).
  rewrite registration_world in Hv. by exists report.
Qed.

Lemma size_positive (report : Report) key messages :
  report !! key = Some messages → (0 <? size report)%nat = true.
Proof.
  intros H. apply Nat.ltb_lt. destruct (size report) eqn:E; [|lia].
  apply map_size_empty_inv in E. subst. by rewrite lookup_empty in H.
Qed.

End ActionFacts.

Section ValidationFailure.
Context {U : Unicode} {C : Collaborators}.

Lemma register_invalid (data : FormData) (w w1 : World) (report : Report) :
  validate (registrationRules (formGet data (js "password"))) data w
  = (Return report, w1) →
  (0 <? size report)%nat = true →
  actions.default data w
  = (Return {| status := 400; invalid := Some true; errors := report |}, w1).
Proof. intros Hv Hs. unfold actions.default, bind. by rewrite Hv, Hs. Qed.

Lemma reported_last key (answers : list (option jsstring)) c message :
  Str.replace (c :: message) (js ":field") (toProperCase key)
  ∈ reported key (answers ++ [Some (c :: message)]).
Proof.
  induction answers as [|[[|? ?]|] rest IH]; simpl; [by left|done|by right|done].
Qed.

Lemma mismatch_reported (data : FormData) (w : World) (report : Report) :
  formGet data (js "passwordConfirmation") ≠ formGet data (js "password") →
  (∀ key answers,
     (key, answers)
     ∈ fst (allResults (registrationRules (formGet data (js "password")))
              data w) →
     report !! key = match reported key answers with
                     | [] => None
                     | messages => Some messages
                     end) →
  ∃ messages, report !! js "passwordConfirmation" = Some messages
              ∧ js "Passwords do not match" ∈ messages.
Proof.
  intros Hne Hin.
  set (value := formGet data (js "passwordConfirmation")).
  specialize (Hin (js "passwordConfirmation")
    ([answered (fst (presenceValidator value w));
      answered (fst (stringValidator value w))]
     ++ [Some (js "Passwords do not match")])).
  assert (Hlast :=
    reported_last (js "passwordConfirmation")
      [answered (fst (presenceValidator value w));
       answered (fst (stringValidator value w))]
      80 (js "asswords do not match")).
  change (Str.replace _ _ _) with (js "Passwords do not match") in Hlast.
  destruct (reported _ _) as [|m l] eqn:E; [by apply elem_of_nil in Hlast|].
  exists (m :: l). split; [|done]. apply Hin.
  apply list_elem_of_lookup. exists 2%nat. simpl.
  unfold Js.strictEq. fold value.
  by rewrite (bool_decide_eq_false_2 _ Hne).
Qed.

End ValidationFailure.

(** C7: when the password and its confirmation differ, the action returns a
    failure of status 400 whose report has the mismatch message under the
    confirmation field; it looks up no account and no player, creates
    nothing and sends nothing.  The one call it may log is the monster count
    of the character-name validator, which runs with the other validators
    and which the specification does not count among the persistence
    operations of the workflow (its scenario D has that validator fail at
    the count, before any persistence attempt). *)
Theorem password_mismatch `{U : Unicode, C : Collaborators}
  (data : FormData) (w : World) :
  formGet data (js "passwordConfirmation") ≠ formGet data (js "password") →
  ∃ report w',
    actions.default data w
    = (Return {| status := 400; invalid := Some true; errors := report |}, w')
    ∧ (∃ messages, report !! js "passwordConfirmation" = Some messages
                   ∧ js "Passwords do not match" ∈ messages)
    ∧ database w' = database w
    ∧ outbox w' = outbox w
    ∧ (queries w' = queries w
       ∨ ∃ name, formGet data (js "characterName") = VString name
                 ∧ queries w' = queries w ++ [MonstersCount name])
    ∧ (∀ q, q ∈ queries w' →
         q ∈ queries w
         ∨ (∃ name, q = MonstersCount name)
           ∧ (∀ email, q ≠ AccountsFindUnique email)
           ∧ (∀ name, q ≠ PlayersFindFirst name)
           ∧ (∀ created, q ≠ AccountsCreate created)).
Proof.
  intros Hne.
  destruct (registration_validate (formGet data (js "password")) data w)
    as (report & Hv & Hin).
  destruct (mismatch_reported data w report Hne Hin) as (messages & Hm & Hmem).
  exists report, (snd (characterNameValidator (formGet data (js "characterName")) w)).
  split; [apply (register_invalid _ _ _ _ Hv), (size_positive _ _ _ Hm)|].
  split; [by exists messages|].
  destruct (characterName_world (formGet data (js "characterName")) w)
    as [->|(name & Hname & ->)]; [by auto 10|].
  split; [done|]. split; [done|]. split; [right; by exists name|].
  intros q Hq. cbn [queries logged] in Hq.
  apply elem_of_app in Hq as [Hq|Hq]; [by left|].
  apply list_elem_of_singleton in Hq as ->. right.
  split; [by exists name|]. by repeat split.
Qed.

Lemma password_mismatch_witness :
  ∃ report w',
    @actions.default asciiOnly Sample.collaborators
      (Sample.form "User@Example.com" "secret" "Secret" "Gregory" "male")
      Sample.world
    = (Return {| status := 400; invalid := Some true; errors := report |}, w')
    ∧ database w' = database Sample.world.
Proof.
  destruct (@password_mismatch asciiOnly Sample.collaborators
              (Sample.form "User@Example.com" "secret" "Secret" "Gregory" "male")
              Sample.world)
    as (report & w' & Hr & _ & Hd & _).
  - vm_compute. discriminate.
  - exists report, w'. split; [exact Hr|exact Hd].
Defined.

(** Validators are not short-circuited: with a well-formed character name
    the monster count of the character-name validator is made, although the
    passwords differ. *)
Lemma mismatch_still_counts_monsters :
  formGet (Sample.form "User@Example.com" "secret" "Secret" "Gregory" "male")
    (js "passwordConfirmation")
  ≠ formGet (Sample.form "User@Example.com" "secret" "Secret" "Gregory" "male")
      (js "password")
  ∧ queries (snd (@actions.default asciiOnly Sample.collaborators
                    (Sample.form "User@Example.com" "secret" "Secret"
                       "Gregory" "male")
                    Sample.world))
    = queries Sample.world ++ [MonstersCount (js "Gregory")].
Proof. split; [vm_compute; discriminate|reflexivity]. Qed.

Section MonsterNames.
Context {U : Unicode} {C : Collaborators}.



End MonsterNames.




Section Creation.
Context {U : Unicode} {C : Collaborators}.

Lemma find_none {A} (f : A → bool) (l : list A) :
  (∀ x, x ∈ l → f x = false) → List.find f l = None.
Proof.
  induction l as [|a l IH]; intros H; [done|]. simpl.
  rewrite (H a) by (by left). apply IH. intros x Hx. apply H. by right.
Qed.

Lemma existsb_none {A} (f : A → bool) (l : list A) :
  (∀ x, x ∈ l → f x = false) → existsb f l = false.
Proof.
  induction l as [|a l IH]; intros H; [done|]. simpl.
  rewrite (H a) by (by left). apply IH. intros x Hx. apply H. by right.
Qed.

Lemma find_some {A} (f : A → bool) (l : list A) (a : A) :
  a ∈ l → f a = true → ∃ b, List.find f l = Some b.
Proof.
  induction l as [|x l IH]; intros Hin Hf; [by apply elem_of_nil in Hin|].
  simpl. destruct (f x) eqn:E; [by eexists|].
  apply elem_of_cons in Hin as [->|Hin]; [congruence|by apply IH].
Qed.

(** The steps after a validation without errors, for unique email and
    name. *)
Lemma register_unique data w w1 email password characterName characterSex :
  requiredStrings data email password characterName characterSex →
  validate (registrationRules (formGet data (js "password"))) data w
  = (Return ∅, w1) →
  (∀ a, a ∈ accounts (database w1) →
        account_email a ≠ Str.toLowerCase email) →
  (∀ p, p ∈ players (database w1) →
        input_name (player_input p) ≠ characterName) →
  let db := database w1 in
  let id := S (length (accounts db)) in
  let token := defaultToken (length (emailVerifications db)) in
  let input := generateCharacterInput characterName
                 (parsePlayerPronoun (formGet data (js "characterPronouns")))
                 (parsePlayerSex characterSex) in
  let expires := (now w1 + 30 * 24 * 60 * 60 * 1000)%Z in
  ∃ w',
    actions.default data w
    = (Throw (Redirect (js "/account/login") (js "success")
                (js "Account created. Check your email to confirm your account.")),
       w')
    ∧ queries w'
      = queries w1
        ++ [ AccountsFindUnique (Str.toLowerCase email);
             PlayersFindFirst characterName;
             AccountsCreate
               {| data_email := Str.toLowerCase email;
                  data_password := hashPassword password;
                  data_players := [ {| create_input := input;
                                       create_is_main := true |} ];
                  data_expires := expires |} ]
    ∧ database w'
      = {| monsters := monsters db;
           accounts := accounts db
             ++ [ {| account_id := id;
                     account_email := Str.toLowerCase email;
                     account_password := hashPassword password |} ];
           players := players db
             ++ [ {| player_account := id; player_input := input;
                     player_is_main := true |} ];
           emailVerifications := emailVerifications db
             ++ [ {| verification_account := id;
                     verification_token := token;
                     verification_expires := expires |} ] |}
    ∧ outbox w' = outbox w1 ++ [(Str.toLowerCase email, token)].
Proof.
  intros (He & He' & Hp & Hp' & Hn & Hn' & Hs & Hs') Hv Hemail Hname.
  unfold actions.default, bind. rewrite Hv.
  change (0 <? size (∅ : Report))%nat with false. cbv iota.
  rewrite He, Hp, Hn, Hs.
  destruct email as [|e0 email']; [done|].
  destruct password as [|p0 password']; [done|].
  destruct characterName as [|n0 name']; [done|].
  destruct characterSex as [|s0 sex']; [done|].
  cbn [Js.truthy andb invariant invariantString ret].
  unfold accountsFindUnique, playersFindFirst, accountsCreate, bind,
    logQuery, getDatabase, ret, dateNow, setDatabase,
    sendVerificationEmail, throw.
  cbn [database logged fst snd].
  rewrite find_none by (intros a Ha; apply eqb_false; by apply Hemail).
  rewrite find_none by (intros p Hp0; apply eqb_false; by apply Hname).
  cbn [data_email data_players existsb create_input orb].
  rewrite existsb_none by (intros a Ha; apply eqb_false; by apply Hemail).
  rewrite existsb_none by (intros p Hp0; apply eqb_false; by apply Hname).
  cbn -[Str.toLowerCase js].
  eexists. split; [reflexivity|]. cbn -[Str.toLowerCase js].
  rewrite <- !app_assoc. done.
Qed.

Lemma register_redirected data w email l t m :
  formGet data (js "email") = VString email →
  fst (actions.default data w) = Throw (Redirect l t m) →
  ∃ a, a ∈ accounts (database (snd (actions.default data w)))
       ∧ account_email a = Str.toLowerCase email.
Proof.
  intros He.
  destruct (registration_validate (formGet data (js "password")) data w)
    as (report & Hv & _).
  unfold actions.default, bind. rewrite Hv.
  destruct (0 <? size report)%nat; [discriminate|].
  rewrite He.
  destruct (Js.truthy _ && _ && _ && _); cbn [invariant ret throw];
    [|discriminate].
  cbn [invariantString ret].
  destruct (formGet data (js "password")) as [|password|];
    cbn [invariantString ret throw]; try discriminate.
  destruct (formGet data (js "characterName")) as [|characterName|];
    cbn [invariantString ret throw]; try discriminate.
  destruct (formGet data (js "characterSex")) as [|characterSex|];
    cbn [invariantString ret throw]; try discriminate.
  unfold accountsFindUnique, playersFindFirst, accountsCreate, bind,
    logQuery, getDatabase, ret, dateNow, setDatabase,
    sendVerificationEmail, throw.
  cbn [database logged fst snd].
  destruct (find _ _); [discriminate|].
  destruct (find _ _); [discriminate|].
  destruct (existsb _ _ || _); [discriminate|].
  cbn -[Str.toLowerCase js]. intros _.
  eexists. split; [apply elem_of_app; right; apply list_elem_of_here|done].
Qed.

(** The steps after a validation without errors, for an email already
    registered. *)
Lemma register_email_taken data w w1 email password characterName
  characterSex (a : Account) :
  requiredStrings data email password characterName characterSex →
  validate (registrationRules (formGet data (js "password"))) data w
  = (Return ∅, w1) →
  a ∈ accounts (database w1) →
  account_email a = Str.toLowerCase email →
  actions.default data w
  = (Return {| status := 400; invalid := None;
               errors := {[ js "email" := [js "Email is already taken"] ]} |},
     logged (AccountsFindUnique (Str.toLowerCase email)) w1).
Proof.
  intros (He & He' & Hp & Hp' & Hn & Hn' & Hs & Hs') Hv Ha Hemail.
  unfold actions.default, bind. rewrite Hv.
  change (0 <? size (∅ : Report))%nat with false. cbv iota.
  rewrite He, Hp, Hn, Hs.
  destruct email as [|e0 email']; [done|].
  destruct password as [|p0 password']; [done|].
  destruct characterName as [|n0 name']; [done|].
  destruct characterSex as [|s0 sex']; [done|].
  cbn [Js.truthy andb invariant invariantString ret].
  unfold accountsFindUnique, bind, logQuery, getDatabase, ret.
  cbn [database logged fst snd].
  destruct (find_some
              (fun a => Str.eqb (account_email a) (Str.toLowerCase (e0 :: email')))
              (accounts (database w1)) a Ha) as [b ->]; [|done].
  by apply eqb_true.
Qed.

(** What validation of the form leaves of the world. *)
Lemma validation_world (value : Value) (w : World) :
  let w1 := snd (characterNameValidator value w) in
  translate w1 = translate w ∧ database w1 = database w
  ∧ now w1 = now w ∧ outbox w1 = outbox w
  ∧ ∃ counts, Forall (fun q => ∃ name, q = MonstersCount name) counts
              ∧ queries w1 = queries w ++ counts.
Proof.
  destruct (characterName_world value w) as [->|(name & _ & ->)]; simpl.
  - repeat split. exists []. split; [done|]. by rewrite app_nil_r.
  - repeat split. exists [MonstersCount name].
    split; [|done]. repeat constructor. by exists name.
Qed.

End Creation.

(** C2: a submission that passes validation, with an email (lower-cased) no
    account has and a character name no player has, reaches the creation
    step: one [create] call is made, carrying one character, marked as the
    main one, and a verification token expiring 30 days after the time of the
    call; with it the database gains one account, one player owned by it with
    [is_main] set, and one verification token owned by it; the verification
    mail is sent and the action ends in the redirect to the login page. *)
Theorem registration_creates `{U : Unicode, C : Collaborators}
  (data : FormData) (w : World)
  (email password characterName characterSex : jsstring) :
  requiredStrings data email password characterName characterSex →
  fst (validate (registrationRules (VString password)) data w) = Return ∅ →
  (∀ a, a ∈ accounts (database w) → account_email a ≠ Str.toLowerCase email) →
  (∀ p, p ∈ players (database w) →
        input_name (player_input p) ≠ characterName) →
  let db := database w in
  let id := S (length (accounts db)) in
  let token := defaultToken (length (emailVerifications db)) in
  let input := generateCharacterInput characterName
                 (parsePlayerPronoun (formGet data (js "characterPronouns")))
                 (parsePlayerSex characterSex) in
  let expires := (now w + 30 * 24 * 60 * 60 * 1000)%Z in
  ∃ w' counts,
    actions.default data w
    = (Throw (Redirect (js "/account/login") (js "success")
                (js "Account created. Check your email to confirm your account.")),
       w')
    ∧ Forall (fun q => ∃ name, q = MonstersCount name) counts
    ∧ queries w'
      = queries w ++ counts
        ++ [ AccountsFindUnique (Str.toLowerCase email);
             PlayersFindFirst characterName;
             AccountsCreate
               {| data_email := Str.toLowerCase email;
                  data_password := hashPassword password;
                  data_players := [ {| create_input := input;
                                       create_is_main := true |} ];
                  data_expires := expires |} ]
    ∧ database w'
      = {| monsters := monsters db;
           accounts := accounts db
             ++ [ {| account_id := id;
                     account_email := Str.toLowerCase email;
                     account_password := hashPassword password |} ];
           players := players db
             ++ [ {| player_account := id; player_input := input;
                     player_is_main := true |} ];
           emailVerifications := emailVerifications db
             ++ [ {| verification_account := id;
                     verification_token := token;
                     verification_expires := expires |} ] |}
    ∧ outbox w' = outbox w ++ [(Str.toLowerCase email, token)].
Proof.
  intros Hreq Hvalid Hemail Hname.
  destruct (registration_validate (formGet data (js "password")) data w)
    as (report & Hv & _).
  assert (formGet data (js "password") = VString password) as Hp
    by apply Hreq.
  rewrite <- Hp, Hv in Hvalid. injection Hvalid as ->.
  destruct (validation_world (formGet data (js "characterName")) w)
    as (Ht & Hd & Hnow & Hout & counts & Hcounts & Hq).
  destruct (register_unique data w _ email password characterName
              characterSex Hreq Hv) as (w' & Hr & Hq' & Hd' & Ho').
  - by rewrite Hd.
  - by rewrite Hd.
  - exists w', counts.
    rewrite Hr, Hq', Hd', Ho', Hd, Hnow, Hout, Hq, <- app_assoc. done.
Qed.

Lemma registration_creates_witness :
  let data := Sample.form "User@Example.com" "secret" "secret" "Gregory" "male" in
  requiredStrings data (js "User@Example.com") (js "secret") (js "Gregory")
    (js "male")
  ∧ ∃ w',
      @actions.default asciiOnly Sample.collaborators data Sample.world
      = (Throw (Redirect (js "/account/login") (js "success")
                  (js "Account created. Check your email to confirm your account.")),
         w')
      ∧ emailVerifications (database w')
        = [ {| verification_account := 1;
               verification_token := js "token0";
               verification_expires := 1702592000000 |} ].
Proof.
  assert (Hreq : requiredStrings
                   (Sample.form "User@Example.com" "secret" "secret"
                      "Gregory" "male")
                   (js "User@Example.com") (js "secret") (js "Gregory")
                   (js "male"))
    by (repeat split; discriminate).
  split; [exact Hreq|].
  destruct (@registration_creates asciiOnly Sample.collaborators
              (Sample.form "User@Example.com" "secret" "secret" "Gregory" "male")
              Sample.world (js "User@Example.com") (js "secret")
              (js "Gregory") (js "male") Hreq)
    as (w' & counts & Hr & _ & _ & Hd & _).
  - reflexivity.
  - intros a Ha. by apply elem_of_nil in Ha.
  - intros p Hp. by apply elem_of_nil in Hp.
  - exists w'. split; [exact Hr|]. rewrite Hd. reflexivity.
Defined.

(** C8: the action lower-cases the email before it looks the account up and
    before it creates it.  After a submission that ended in the redirect, the
    account is stored under the lower-cased email; a valid submission made
    later, in a world that still has the accounts of then, whose email
    differs from the first only in letter case, is looked up under the same
    lower-cased text and is rejected with the email-collision failure,
    nothing created. *)
Theorem email_case_collision `{U : Unicode, C : Collaborators}
  (data1 data2 : FormData) (w later : World)
  (email1 email2 password2 characterName2 characterSex2 : jsstring)
  (location flashType flashMessage : jsstring) :
  formGet data1 (js "email") = VString email1 →
  fst (actions.default data1 w) = Throw (Redirect location flashType flashMessage) →
  (∀ a, a ∈ accounts (database (snd (actions.default data1 w))) →
        a ∈ accounts (database later)) →
  requiredStrings data2 email2 password2 characterName2 characterSex2 →
  fst (validate (registrationRules (VString password2)) data2 later) = Return ∅ →
  Str.toLowerCase email2 = Str.toLowerCase email1 →
  (∃ a, a ∈ accounts (database (snd (actions.default data1 w)))
        ∧ account_email a = Str.toLowerCase email1)
  ∧ ∃ w2 counts,
      actions.default data2 later
      = (Return {| status := 400; invalid := None;
                   errors := {[ js "email" := [js "Email is already taken"] ]} |},
         w2)
      ∧ Forall (fun q => ∃ name, q = MonstersCount name) counts
      ∧ queries w2
        = queries later ++ counts
          ++ [AccountsFindUnique (Str.toLowerCase email2)]
      ∧ database w2 = database later
      ∧ outbox w2 = outbox later.
Proof.
  intros He1 Hfirst Hkept Hreq Hvalid Hcase.
  destruct (register_redirected data1 w email1 _ _ _ He1 Hfirst)
    as (a & Ha & Hemail).
  split; [by exists a|].
  destruct (registration_validate (formGet data2 (js "password")) data2 later)
    as (report & Hv & _).
  assert (formGet data2 (js "password") = VString password2) as Hp
    by apply Hreq.
  rewrite <- Hp, Hv in Hvalid. injection Hvalid as ->.
  destruct (validation_world (formGet data2 (js "characterName")) later)
    as (Ht & Hd & Hnow & Hout & counts & Hcounts & Hq).
  eexists. exists counts. split.
  - apply (register_email_taken data2 later _ email2 password2 characterName2
             characterSex2 a Hreq Hv); [|by rewrite Hcase].
    rewrite Hd. by apply Hkept.
  - simpl. by rewrite Hq, Hd, Hout, <- app_assoc.
Qed.

Lemma email_case_collision_witness :
  let first := Sample.form "User@Example.com" "secret" "secret" "Gregory" "male" in
  let second := Sample.form "user@example.com" "hidden" "hidden" "Gregor" "male" in
  let w1 := snd (@actions.default asciiOnly Sample.collaborators first Sample.world) in
  @Str.toLowerCase asciiOnly (js "user@example.com")
  = @Str.toLowerCase asciiOnly (js "User@Example.com")
  ∧ ∃ w2,
      @actions.default asciiOnly Sample.collaborators second w1
      = (Return {| status := 400; invalid := None;
                   errors := {[ js "email" := [js "Email is already taken"] ]} |},
         w2)
      ∧ database w2 = database w1.
Proof.
  assert (Hcase : @Str.toLowerCase asciiOnly (js "user@example.com")
                  = @Str.toLowerCase asciiOnly (js "User@Example.com"))
    by reflexivity.
  split; [exact Hcase|].
  destruct (@email_case_collision asciiOnly Sample.collaborators
              (Sample.form "User@Example.com" "secret" "secret" "Gregory" "male")
              (Sample.form "user@example.com" "hidden" "hidden" "Gregor" "male")
              Sample.world
              (snd (@actions.default asciiOnly Sample.collaborators
                      (Sample.form "User@Example.com" "secret" "secret"
                         "Gregory" "male")
                      Sample.world))
              (js "User@Example.com") (js "user@example.com")
              (js "hidden") (js "Gregor") (js "male")
              (js "/account/login") (js "success")
              (js "Account created. Check your email to confirm your account."))
    as (_ & w2 & counts & Hr & _ & _ & Hd & _).
  - reflexivity.
  - reflexivity.
  - intros a Ha. exact Ha.
  - repeat split; discriminate.
  - reflexivity.
  - exact Hcase.
  - exists w2. split; [exact Hr|exact Hd].
Defined.

(** ** The shape validators *)

Section ShapeFacts.
Context {U : Unicode} {C : Collaborators}.

Lemma startsWith_single (s : jsstring) (c : N) :
  Str.startsWith s [c] = true ↔ ∃ rest, s = c :: rest.
Proof.
  destruct s as [|a s]; simpl.
  - split; [done|by intros [? ?]].
  - rewrite andb_true_iff, N.eqb_eq. split.
    + intros [-> _]. by eexists.
    + intros [rest [= -> _]]. split; [done|by destruct s].
Qed.

Lemma includes_single (s : jsstring) (c : N) :
  Str.includes s [c] = false ↔ c ∉ s.
Proof.
  induction s as [|a s IH].
  - simpl. split; [intros _ H; by apply elem_of_nil in H|done].
  - cbn [Str.includes]. rewrite orb_false_iff, IH, not_elem_of_cons. split.
    + intros [Hs Hrest]. split; [|done]. intros ->.
      rewrite (proj2 (startsWith_single (a :: s) a)) in Hs; [done|by eexists].
    + intros [Hne Hrest]. split; [|done].
      destruct (Str.startsWith (a :: s) [c]) eqn:E; [|done].
      apply startsWith_single in E as [rest [= -> _]]. done.
Qed.

Lemma splitFirst_single (c : N) : ∀ s before after,
  Str.splitFirst [c] s = Some (before, after)
  ↔ s = before ++ c :: after ∧ c ∉ before.
Proof.
  induction s as [|a s IH]; intros before after; cbn [Str.splitFirst].
  - simpl. split; [done|]. intros [H _]. by destruct before.
  - destruct (Str.startsWith (a :: s) [c]) eqn:E.
    + apply startsWith_single in E as [rest [= -> ->]]. simpl.
      rewrite drop_0. split.
      * intros [= <- <-]. split; [done|]. intros H. by apply elem_of_nil in H.
      * intros [Hs Hnot]. destruct before as [|b before].
        -- simpl in Hs. by injection Hs as ->.
        -- injection Hs as -> _. destruct Hnot. by left.
    + assert (a ≠ c) as Hne.
      { intros ->. rewrite (proj2 (startsWith_single (c :: s) c)) in E;
          [done|by eexists]. }
      destruct (Str.splitFirst [c] s) as [[b0 a0]|] eqn:Es.
      * destruct (proj1 (IH b0 a0) eq_refl) as [Hs0 Hnot]. split.
        -- intros [= <- <-]. split; [by rewrite Hs0|].
           apply not_elem_of_cons. by split.
        -- intros [Hs Hb]. destruct before as [|b before];
             simpl in Hs; injection Hs as -> Hs; [done|].
           apply not_elem_of_cons in Hb as [_ Hb].
           by injection (proj2 (IH before after) (conj Hs Hb)) as -> ->.
      * split; [done|]. intros [Hs Hb].
        destruct before as [|b before]; simpl in Hs; injection Hs as -> Hs;
          [done|].
        apply not_elem_of_cons in Hb as [_ Hb].
        discriminate (proj2 (IH before after) (conj Hs Hb)).
Qed.

Lemma dotInside_split (domain : jsstring) :
  dotInside domain = true
  ↔ ∃ name rest, domain = name ++ 46 :: rest ∧ name ≠ [] ∧ rest ≠ [].
Proof.
  induction domain as [|a domain IH]; [split; [done|]|].
  - intros (name & rest & H & _). by destruct name.
  - destruct domain as [|d after].
    + simpl. split; [done|]. intros (name & rest & H & Hn & Hr).
      destruct name as [|? [|? ?]]; simpl in H; simplify_eq.
    + cbn [dotInside]. rewrite orb_true_iff, andb_true_iff, negb_true_iff,
        N.eqb_eq, bool_decide_eq_false, IH. split.
      * intros [[-> Hafter]|(name & rest & -> & Hn & Hr)].
        -- exists [a], after. split; [done|]. split; [discriminate|done].
        -- exists (a :: name), rest. split; [done|].
           split; [discriminate|done].
      * intros (name & rest & H & Hn & Hr).
        destruct name as [|x [|y name]]; [done| |]; simpl in H; simplify_eq.
        -- left. by split.
        -- right. exists (y :: name), rest. split; [done|].
           split; [discriminate|done].
Qed.

End ShapeFacts.

Section EmailShape.
Context {U : Unicode} {C : Collaborators}.

Lemma emailPattern_shape (s : jsstring) :
  emailPattern s = true
  ↔ ∃ localPart name rest,
      s = localPart ++ 64 :: name ++ 46 :: rest
      ∧ localPart ≠ [] ∧ name ≠ [] ∧ rest ≠ []
      ∧ (64 ∉ localPart) ∧ (64 ∉ name) ∧ (64 ∉ rest).
Proof.
  unfold emailPattern. split.
  - destruct (Str.splitFirst [64] s) as [[localPart domain]|] eqn:E; [|done].
    apply splitFirst_single in E as [-> Hlocal].
    rewrite !andb_true_iff, !negb_true_iff, bool_decide_eq_false,
      includes_single, dotInside_split.
    intros [[Hne Hat] (name & rest & -> & Hname & Hrest)].
    exists localPart, name, rest.
    rewrite elem_of_app, elem_of_cons in Hat.
    repeat split; try done; intros H; apply Hat; auto.
  - intros (localPart & name & rest & -> & Hl & Hn & Hr & Hal & Han & Har).
    rewrite (proj2 (splitFirst_single 64 _ localPart (name ++ 46 :: rest)))
      by done.
    rewrite !andb_true_iff, !negb_true_iff, bool_decide_eq_false,
      includes_single, dotInside_split.
    split; [split; [done|]|by exists name, rest].
    rewrite elem_of_app, elem_of_cons. intros [?|[?|?]]; done.
Qed.

End EmailShape.

(** X1: [emailValidator] answers [null] exactly for a string made of a
    non-empty local part, one [@], and a domain that has a dot with
    something before and after it, no part holding a further [@]; for every
    other value it answers a message.  It never changes the world. *)
Theorem emailValidator_accepts `{U : Unicode, C : Collaborators}
  (value : Value) (w : World) :
  (fst (emailValidator value w) = Return None
   ↔ ∃ localPart name rest,
       value = VString (localPart ++ 64 :: name ++ 46 :: rest)
       ∧ localPart ≠ [] ∧ name ≠ [] ∧ rest ≠ []
       ∧ (64 ∉ localPart) ∧ (64 ∉ name) ∧ (64 ∉ rest))
  ∧ (∃ answer, fst (emailValidator value w) = Return answer)
  ∧ snd (emailValidator value w) = w.
Proof.
  split; [|split; [by eexists|done]].
  destruct value as [|s|]; simpl.
  - split; [done|]. by intros (? & ? & ? & ? & _).
  - destruct (emailPattern s) eqn:E; simpl.
    + split; [intros _|done].
      apply emailPattern_shape in E as (l & n & r & -> & H). by exists l, n, r.
    + split; [done|]. intros (l & n & r & [= ->] & H).
      rewrite (proj2 (emailPattern_shape _)) in E; [done|]. by exists l, n, r.
  - split; [done|]. by intros (? & ? & ? & ? & _).
Qed.

Section SlugShape.
Context {U : Unicode} {C : Collaborators}.

Lemma slug_char_lower (c : N) :
  Char.isLowerAZ c || Char.isDigit c || (c =? 45) = true →
  Char.isAscii c = true ∧ Char.toLower c = c.
Proof.
  unfold Char.isLowerAZ, Char.isDigit, Char.isAscii, Char.toLower,
    Char.isUpperAZ.
  intros H. assert (c < 128 ∧ (c < 65 ∨ 90 < c)) as [Ha Hu].
  { repeat (apply orb_prop in H; destruct H as [H|H]);
      try (apply andb_prop in H; destruct H as [H1 H2];
           apply N.leb_le in H1; apply N.leb_le in H2; lia).
    apply N.eqb_eq in H. lia. }
  split; [by apply N.ltb_lt|].
  destruct ((65 <=? c) && (c <=? 90)) eqn:E; [|done].
  apply andb_prop in E as [E1 E2]. apply N.leb_le in E1. apply N.leb_le in E2.
  lia.
Qed.

Lemma slug_chars_lower (s : jsstring) :
  forallb (fun c => Char.isLowerAZ c || Char.isDigit c || (c =? 45)) s = true →
  Str.toLowerCase s = s.
Proof.
  intros H. unfold Str.toLowerCase.
  assert (forallb Char.isAscii s = true ∧ List.map Char.toLower s = s)
    as [-> ?]; [|done].
  induction s as [|c s IH]; [done|]. simpl in *.
  apply andb_prop in H as [Hc Hs].
  destruct (slug_char_lower c Hc) as [-> ->]. destruct (IH Hs) as [-> ->].
  done.
Qed.

Lemma slug_class (s : jsstring) :
  forallb (fun c => Char.isLowerAZ c || Char.isDigit c || (c =? 45)) s = true
  ↔ Forall (fun c => Char.isLowerAZ c = true ∨ Char.isDigit c = true ∨ c = 45)
      s.
Proof.
  rewrite forallb_forall, Forall_forall. split; intros H c Hc.
  - specialize (H c (proj1 (list_elem_of_In _ _) Hc)).
    rewrite !orb_true_iff, N.eqb_eq in H. tauto.
  - specialize (H c (proj2 (list_elem_of_In _ _) Hc)).
    rewrite !orb_true_iff, N.eqb_eq. tauto.
Qed.

End SlugShape.

(** X2: [slugValidator] answers [null] exactly for a string of 3 to 20 code
    units, each a lower-case letter, a digit or a hyphen (the lower-case
    check adds nothing to the character class); it throws exactly when the
    value is not a string, and it never changes the world. *)
Theorem slugValidator_accepts `{U : Unicode, C : Collaborators}
  (value : Value) (w : World) :
  (fst (slugValidator value w) = Return None
   ↔ ∃ s, value = VString s ∧ (3 ≤ length s ≤ 20)%nat
          ∧ Forall (fun c => Char.isLowerAZ c = true ∨ Char.isDigit c = true
                             ∨ c = 45) s)
  ∧ ((∃ e, fst (slugValidator value w) = Throw e) ↔ Js.isString value = false)
  ∧ snd (slugValidator value w) = w.
Proof.
  destruct value as [|s|]; simpl.
  - split; [|split; [split; [done|by eexists]|done]].
    split; [done|]. by intros (? & ? & _).
  - split; [|split].
    + split.
      * destruct (length s <? 3)%nat eqn:E1; [done|].
        destruct (20 <? length s)%nat eqn:E2; [done|].
        destruct (negb (Str.eqb s (Str.toLowerCase s))); [done|].
        destruct (negb (slugPattern s)) eqn:E3; [done|]. intros _.
        apply Nat.ltb_ge in E1. apply Nat.ltb_ge in E2.
        apply negb_false_iff in E3. unfold slugPattern in E3.
        apply andb_prop in E3 as [_ E3]. exists s.
        split; [done|]. split; [lia|]. by apply slug_class.
      * intros (s0 & [= <-] & [H1 H2] & HF). apply slug_class in HF.
        rewrite (proj2 (Nat.ltb_ge _ _) H1), (proj2 (Nat.ltb_ge _ _) H2).
        rewrite (slug_chars_lower s HF), (proj2 (eqb_true s s) eq_refl).
        unfold slugPattern. rewrite HF.
        destruct s as [|c s]; [simpl in H1; lia|]. done.
    + split; [|done]. repeat match goal with
             | |- context [if ?b then _ else _] => destruct b
             end; by intros [? ?].
    + by repeat match goal with
             | |- context [if ?b then _ else _] => destruct b
             end.
  - split; [|split; [split; [done|by eexists]|done]].
    split; [done|]. by intros (? & ? & _).
Qed.

Section AcceptedNames.
Context {U : Unicode} {C : Collaborators}.

Lemma characterName_accepted (value : jsstring) (w : World) :
  fst (characterNameValidator (VString value) w) = Return None →
  passesShape value = true ∧ fst (monstersCount value w) = 0%nat.
Proof.
  unfold characterNameValidator, passesShape.
  repeat match goal with
         | |- context [if ?b then _ else _] =>
             destruct b eqn:?; [done|]
         end.
  destruct (monstersCount value w) as [count w'] eqn:Ec.
  destruct (0 <? count)%nat eqn:E0; [done|]. intros _.
  repeat match goal with
         | H : negb _ = false |- _ => apply negb_false_iff in H
         end.
  split.
  - repeat match goal with
           | H : _ = _ :> bool |- _ => rewrite H; clear H
           end.
    done.
  - apply Nat.ltb_ge in E0. simpl. lia.
Qed.

Lemma existsb_false_In {A} (f : A → bool) (l : list A) (x : A) :
  existsb f l = false → In x l → f x = false.
Proof.
  intros H Hx. destruct (f x) eqn:E; [|done].
  rewrite (proj2 (existsb_exists f l)) in H; [done|]. by exists x.
Qed.

Lemma dropSpaces_length (s : jsstring) :
  (length (Str.dropSpaces s) ≤ length s)%nat.
Proof.
  induction s as [|c s IH]; simpl; [lia|].
  destruct (Char.isSpace c); simpl; lia.
Qed.

Lemma trim_head (c : N) (rest : jsstring) :
  Str.trim (c :: rest) = c :: rest → Char.isSpace c = false.
Proof.
  intros H. destruct (Char.isSpace c) eqn:E; [|done].
  apply (f_equal length) in H. unfold Str.trim in H.
  rewrite length_rev in H.
  pose proof (dropSpaces_length (rev (Str.dropSpaces (c :: rest)))) as H1.
  rewrite length_rev in H1. simpl in H, H1. rewrite E in H, H1.
  pose proof (dropSpaces_length rest). lia.
Qed.

Lemma includes_infix (p : jsstring) : ∀ before after,
  Str.includes (before ++ p ++ after) p = true.
Proof.
  induction before as [|c before IH]; intros after.
  - simpl. destruct (p ++ after) eqn:E; cbn [Str.includes];
      rewrite <- E, startsWith_app; done.
  - cbn [app Str.includes]. rewrite IH. apply orb_true_r.
Qed.

(** What lower-cases into the name alphabet is a letter, a space, a hyphen
    or an apostrophe. *)
Lemma name_char (c : N) :
  Char.isLowerAZ (Char.toLower c) || (Char.toLower c =? 45)
  || (Char.toLower c =? 32) || (Char.toLower c =? 39) = true →
  Char.isUpperAZ c = true ∨ Char.isLowerAZ c = true
  ∨ c = 32 ∨ c = 45 ∨ c = 39.
Proof.
  unfold Char.toLower. destruct (Char.isUpperAZ c) eqn:E; [by left|].
  rewrite !orb_true_iff, !N.eqb_eq. tauto.
Qed.

Lemma toLower_not (c x : N) :
  Char.isUpperAZ x = false → Char.isLowerAZ x = false →
  Char.toLower c = x → c = x.
Proof.
  unfold Char.toLower. destruct (Char.isUpperAZ c) eqn:E; [|done].
  intros _ Hl <-. unfold Char.isUpperAZ, Char.isLowerAZ in *.
  apply andb_prop in E as [E1 E2]. apply N.leb_le in E1. apply N.leb_le in E2.
  apply andb_false_iff in Hl as [Hl|Hl]; apply N.leb_gt in Hl; lia.
Qed.

Lemma noLowerStart_after_space (before after : jsstring) (c : N) :
  ∀ inMatch,
    noLowerStart inMatch (before ++ 32 :: c :: after) = true →
    Char.isWord c = true → Char.isLowerAZ c = false.
Proof.
  induction before as [|b before IH]; intros inMatch; simpl.
  - destruct inMatch; simpl; intros H Hw; rewrite Hw in H;
      apply andb_prop in H as [H _]; by apply negb_true_iff in H.
  - destruct inMatch; [apply IH|].
    destruct (Char.isWord b); [|apply IH].
    intros H. apply andb_prop in H as [_ H]. revert H. apply IH.
Qed.

End AcceptedNames.

(** X3: a character name of ASCII characters that [characterNameValidator]
    accepts has 3 to 20 characters, each a letter, a space, a hyphen or an
    apostrophe; it starts with an upper-case letter; a character that
    follows a space is an upper-case letter or another space; and no monster
    bears the name. *)
Theorem accepted_name_shape `{U : Unicode, C : Collaborators}
  (value : jsstring) (w : World) :
  forallb Char.isAscii value = true →
  fst (characterNameValidator (VString value) w) = Return None →
  (3 ≤ length value ≤ 20)%nat
  ∧ Forall (fun c => Char.isUpperAZ c = true ∨ Char.isLowerAZ c = true
                     ∨ c = 32 ∨ c = 45 ∨ c = 39) value
  ∧ (∃ c rest, value = c :: rest ∧ Char.isUpperAZ c = true)
  ∧ (∀ before c after, value = before ++ 32 :: c :: after →
       c = 32 ∨ Char.isUpperAZ c = true)
  ∧ value ∉ monsters (database w).
Proof.
  intros Hascii Haccepted.
  destruct (characterName_accepted value w Haccepted) as [Hshape Hcount].
  unfold passesShape in Hshape.
  repeat (apply andb_prop in Hshape; destruct Hshape as [Hshape ?]).
  repeat match goal with
         | H : negb _ = true |- _ => apply negb_true_iff in H
         end.
  match goal with H : Str.eqb (toTitleCase _) _ = true |- _ =>
    apply eqb_true, titleWords_fixed in H; rename H into Htitle end.
  match goal with H : Str.eqb (Str.trim _) _ = true |- _ =>
    apply eqb_true in H; rename H into Htrim end.
  match goal with H : namePattern _ = true |- _ =>
    unfold namePattern in H; apply andb_prop in H as [_ Hclass] end.
  match goal with H : existsb _ BLOCKD_PREFIXES = false |- _ =>
    rename H into Hprefix end.
  match goal with H : existsb _ BLOCKED_WORDS = false |- _ =>
    rename H into Hwords end.
  unfold Str.toLowerCase in Hclass, Hprefix, Hwords.
  rewrite Hascii in Hclass, Hprefix, Hwords.
  assert (Forall (fun c => Char.isUpperAZ c = true ∨ Char.isLowerAZ c = true
                           ∨ c = 32 ∨ c = 45 ∨ c = 39) value) as Hchars.
  { apply Forall_forall. intros c Hc.
    rewrite forallb_forall in Hclass. apply name_char, Hclass.
    apply in_map. by apply list_elem_of_In. }
  split; [split; [by apply Nat.ltb_ge|by apply Nat.ltb_ge]|].
  split; [done|]. split; [|split].
  - destruct value as [|c rest]; [done|]. exists c, rest. split; [done|].
    apply Forall_cons in Hchars as [Hc _].
    pose proof (trim_head c rest Htrim) as Hspace.
    assert (∀ x, In [x] BLOCKD_PREFIXES → Char.toLower x = x → c ≠ x)
      as Hstart.
    { intros x Hin Hx ->.
      pose proof (existsb_false_In _ _ [x] Hprefix Hin) as Hno.
      cbn [List.map] in Hno. rewrite Hx in Hno.
      rewrite (proj2 (startsWith_single _ x)) in Hno; [done|by eexists]. }
    assert (c ≠ 39) as Hn39
      by (apply Hstart; [unfold BLOCKD_PREFIXES; simpl; tauto|done]).
    assert (c ≠ 45) as Hn45
      by (apply Hstart; [unfold BLOCKD_PREFIXES; simpl; tauto|done]).
    assert (c ≠ 32) as Hn32 by (by intros ->).
    destruct Hc as [Hc|[Hc|[Hc|[Hc|Hc]]]]; try done.
    simpl in Htitle. unfold Char.isWord in Htitle. rewrite Hc in Htitle.
    rewrite orb_true_r in Htitle. simpl in Htitle. discriminate Htitle.
  - intros before c after Hvalue. subst value.
    apply Forall_app in Hchars as [_ Hchars].
    apply Forall_cons in Hchars as [_ Hchars].
    apply Forall_cons in Hchars as [Hc _].
    assert (∀ x, Char.isUpperAZ x = false → Char.isLowerAZ x = false →
                 In [32; x] BLOCKED_WORDS → c ≠ x) as Hblocked.
    { intros x Hu Hl Hin ->.
      pose proof (existsb_false_In _ _ [32; x] Hwords Hin) as Hno.
      rewrite map_app in Hno. cbn [List.map] in Hno.
      change (Char.toLower 32) with 32 in Hno.
      unfold Char.toLower at 2 in Hno. rewrite Hu in Hno.
      pose proof (includes_infix [32; x] (List.map Char.toLower before)
                    (List.map Char.toLower after)) as Hyes.
      cbn [app] in Hyes. congruence. }
    destruct Hc as [Hc|[Hc|[Hc|[Hc|Hc]]]]; [by right| |by left| |].
    + pose proof (noLowerStart_after_space before after c false Htitle) as Hl.
      rewrite Hl in Hc; [done|]. unfold Char.isWord. rewrite Hc.
      by destruct (Char.isUpperAZ c).
    + exfalso. apply (Hblocked 45); [done|done| |done].
      unfold BLOCKED_WORDS. apply in_or_app. left. simpl. tauto.
    + exfalso. apply (Hblocked 39); [done|done| |done].
      unfold BLOCKED_WORDS. apply in_or_app. left. simpl. tauto.
  - intros Hin. pose proof (monstersCount_positive value w Hin) as Hpos.
    rewrite Hcount in Hpos. done.
Qed.

Lemma accepted_name_shape_witness :
  fst (@characterNameValidator asciiOnly Sample.collaborators
         (VString (js "Von Der-leyen")) Sample.world) = Return None
  ∧ (3 ≤ length (js "Von Der-leyen") ≤ 20)%nat
  ∧ js "Von Der-leyen" ∉ monsters (database Sample.world).
Proof.
  assert (Haccepted :
    fst (@characterNameValidator asciiOnly Sample.collaborators
           (VString (js "Von Der-leyen")) Sample.world) = Return None)
    by reflexivity.
  split; [exact Haccepted|].
  destruct (@accepted_name_shape asciiOnly Sample.collaborators
              (js "Von Der-leyen") Sample.world eq_refl Haccepted)
    as (Hlen & _ & _ & _ & Hmonster).
  split; [exact Hlen|exact Hmonster].
Defined.

(** ** Title case and proper case *)

Section CaseFacts.
Context {U : Unicode}.

Lemma toUpper_upper (c : N) :
  Char.isLowerAZ c = true →
  Char.isUpperAZ (Char.toUpper c) = true
  ∧ Char.isLowerAZ (Char.toUpper c) = false.
Proof.
  unfold Char.toUpper. intros H. rewrite H.
  unfold Char.isLowerAZ, Char.isUpperAZ in *.
  apply andb_prop in H as [H1 H2]. apply N.leb_le in H1. apply N.leb_le in H2.
  split.
  - apply andb_true_intro. split; apply N.leb_le; lia.
  - apply andb_false_iff. left. apply N.leb_gt. lia.
Qed.

Lemma toUpper_word (c : N) :
  Char.isWord c = true →
  Char.isWord (Char.toUpper c) = true
  ∧ Char.toUpper (Char.toUpper c) = Char.toUpper c.
Proof.
  intros Hw. destruct (Char.isLowerAZ c) eqn:E.
  - destruct (toUpper_upper c E) as [Hu Hl]. split.
    + unfold Char.isWord. by rewrite Hu.
    + by apply toUpper_fixed.
  - unfold Char.toUpper. by rewrite E, E.
Qed.

Lemma titleWords_length (str : jsstring) : ∀ inMatch,
  length (titleWords inMatch str) = length str.
Proof.
  induction str as [|c str IH]; intros inMatch; [done|]. simpl.
  destruct inMatch; simpl; [by rewrite IH|].
  destruct (Char.isWord c) eqn:E; simpl; [|by rewrite IH].
  rewrite (toUpperCase_ascii c (isWord_ascii c E)). simpl. by rewrite IH.
Qed.

Lemma titleWords_again (str : jsstring) : ∀ inMatch,
  titleWords inMatch (titleWords inMatch str) = titleWords inMatch str.
Proof.
  induction str as [|c str IH]; intros inMatch; [done|]. simpl.
  destruct inMatch; simpl; [by rewrite IH|].
  destruct (Char.isWord c) eqn:E; simpl.
  - rewrite (toUpperCase_ascii c (isWord_ascii c E)). simpl.
    destruct (toUpper_word c E) as [Hw Hu]. rewrite Hw.
    rewrite (toUpperCase_ascii _ (isWord_ascii _ Hw)). simpl.
    by rewrite Hu, IH.
  - by rewrite E, IH.
Qed.



End CaseFacts.

(** X4: [toTitleCase] keeps the length of the text and is idempotent: the
    title-cased text is its own title-cased transform, so it passes the
    casing comparison of the character-name policy. *)
Theorem toTitleCase_idempotent `{U : Unicode} (str : jsstring) :
  length (toTitleCase str) = length str
  ∧ toTitleCase (toTitleCase str) = toTitleCase str.
Proof. split; [apply titleWords_length|apply titleWords_again]. Qed.



(** ** [groupBy] *)

Section GroupByFacts.
Context {T : Type} (propertyKey : T → jsstring).

Lemma groupInto_groups (array : list T) : ∀ result,
  Forall (fun x => Js.inherited (propertyKey x) = false) array →
  ∃ groups,
    groupInto propertyKey array result = Return groups
    ∧ ∀ k, groups !! k
           = match filter (fun x => propertyKey x = k) array with
             | [] => result !! k
             | members => Some (default [] (result !! k) ++ members)
             end.
Proof.
  induction array as [|x array IH]; intros result Hk.
  - exists result. by split.
  - apply Forall_cons in Hk as [Hx Hk]. simpl.
    assert (groupStep propertyKey result x
            = Return (<[propertyKey x :=
                          default [] (result !! propertyKey x) ++ [x]]> result))
      as ->.
    { unfold groupStep. destruct (result !! propertyKey x); [done|].
      by rewrite Hx. }
    destruct (IH (<[propertyKey x :=
                      default [] (result !! propertyKey x) ++ [x]]> result) Hk)
      as (groups & -> & Hgroups).
    exists groups. split; [done|]. intros k. rewrite Hgroups.
    rewrite filter_cons. destruct (decide (propertyKey x = k)) as [<-|Hne].
    + rewrite lookup_insert_eq. simpl.
      destruct (filter _ array); [done|]. by rewrite <- app_assoc.
    + by rewrite lookup_insert_ne.
Qed.

Lemma groupInto_throws (array : list T) : ∀ result,
  (∀ k, Js.inherited k = true → result !! k = None) →
  Exists (fun x => Js.inherited (propertyKey x) = true) array →
  groupInto propertyKey array result = Throw TypeError.
Proof.
  induction array as [|x array IH]; intros result Hresult Hex;
    [by apply Exists_nil in Hex|].
  simpl. unfold groupStep.
  destruct (Js.inherited (propertyKey x)) eqn:Hx.
  - by rewrite (Hresult _ Hx).
  - apply Exists_cons in Hex as [Hex|Hex]; [congruence|].
    destruct (result !! propertyKey x); apply IH; try done;
      intros k Hk; rewrite lookup_insert_ne; auto; congruence.
Qed.

End GroupByFacts.

(** X7: when no element's key is a name inherited from [Object.prototype],
    [groupBy] returns the groups: under each key the elements of the array
    that have this key, all of them and in array order, and no key without
    an element. *)
Theorem groupBy_groups {T : Type} (propertyKey : T → jsstring)
  (array : list T) :
  Forall (fun x => Js.inherited (propertyKey x) = false) array →
  ∃ groups,
    groupBy propertyKey array = Return groups
    ∧ ∀ k, groups !! k
           = match filter (fun x => propertyKey x = k) array with
             | [] => None
             | members => Some members
             end.
Proof.
  intros Hk.
  destruct (groupInto_groups propertyKey array ∅ Hk) as (groups & Hg & Hgroups).
  exists groups. split; [done|]. intros k. rewrite Hgroups, lookup_empty.
  by destruct (filter _ array).
Qed.

Lemma groupBy_groups_witness :
  ∃ groups,
    groupBy (fun town => town_name town)
      [ {| town_id := 1; town_name := js "thais" |};
        {| town_id := 2; town_name := js "venore" |};
        {| town_id := 3; town_name := js "thais" |} ]
    = Return groups
    ∧ groups !! js "thais"
      = Some [ {| town_id := 1; town_name := js "thais" |};
               {| town_id := 3; town_name := js "thais" |} ].
Proof.
  destruct (groupBy_groups (fun town => town_name town)
              [ {| town_id := 1; town_name := js "thais" |};
                {| town_id := 2; town_name := js "venore" |};
                {| town_id := 3; town_name := js "thais" |} ])
    as (groups & Hg & Hgroups).
  - repeat constructor.
  - exists groups. split; [exact Hg|]. rewrite Hgroups. reflexivity.
Defined.

(** X8: [groupBy] throws a [TypeError] exactly when some element's key is a
    name inherited from [Object.prototype]; otherwise it returns. *)
Theorem groupBy_throws {T : Type} (propertyKey : T → jsstring)
  (array : list T) :
  (groupBy propertyKey array = Throw TypeError
   ↔ Exists (fun x => Js.inherited (propertyKey x) = true) array)
  ∧ (∀ e, groupBy propertyKey array = Throw e → e = TypeError).
Proof.
  assert (Exists (fun x => Js.inherited (propertyKey x) = true) array
          ∨ Forall (fun x => Js.inherited (propertyKey x) = false) array)
    as [Hex|Hall].
  { induction array as [|x array [IH|IH]]; [by right|left; by right|].
    destruct (Js.inherited (propertyKey x)) eqn:E;
      [left; by left|right; by constructor]. }
  - assert (groupBy propertyKey array = Throw TypeError) as Hthrow
      by (apply groupInto_throws; [done|done]).
    rewrite Hthrow. split; [done|]. by intros e [= <-].
  - destruct (groupBy_groups propertyKey array Hall) as (groups & -> & _).
    split; [|done]. split; [done|]. intros Hex.
    apply Exists_exists in Hex as (x & Hx & Hi).
    rewrite Forall_forall in Hall. by rewrite (Hall x Hx) in Hi.
Qed.

(** ** [getAvailableTowns] *)

(** X9: [getAvailableTowns] throws exactly when the tutorial town is the only
    starter town found; otherwise it returns a list that is not empty: the
    default town when none was found, the towns found when the first is not
    the tutorial town, and else the towns after the tutorial town, the first
    of them under the id 1. *)
Theorem getAvailableTowns_cases (found : list Town) :
  ((∃ e, getAvailableTowns found = Throw e)
   ↔ ∃ id, found = [ {| town_id := id; town_name := js "Dawnport Tutorial" |} ])
  ∧ (∀ towns, getAvailableTowns found = Return towns →
       towns ≠ []
       ∧ (found = [] → towns = [ {| town_id := 8; town_name := js "thais" |} ])
       ∧ (∀ first rest, found = first :: rest →
            town_name first ≠ js "Dawnport Tutorial" → towns = found)
       ∧ (∀ first second others, found = first :: second :: others →
            town_name first = js "Dawnport Tutorial" →
            towns = {| town_id := 1; town_name := town_name second |} :: others)).
Proof.
  unfold getAvailableTowns.
  destruct found as [|[id name] rest]; simpl.
  - split; [split; [by intros [? ?]|by intros [? ?]]|].
    intros towns [= <-]. repeat split; done.
  - destruct (Str.eqb name (js "Dawnport Tutorial")) eqn:E.
    + apply eqb_true in E as ->. destruct rest as [|second others].
      * split; [split; [by exists id|by eexists]|done].
      * split; [split; [by intros [? ?]|by intros [? [= ]]]|].
        intros towns [= <-]. split; [done|]. split; [done|].
        split; [by intros ? ? [= <- <-] ?|by intros ? ? ? [= <- <- <-] _].
    + apply eqb_false in E. split.
      * split; [by intros [? ?]|]. intros [? H]. by simplify_eq.
      * intros towns [= <-]. split; [done|]. split; [done|].
        split; [done|]. intros first second others Hfound Hname.
        by simplify_eq.
Qed.

(** ** The last login of an account *)

Section LastLoginFacts.

Lemma latestLogin_from (lastLogins : list (option Date)) : ∀ m,
  Forall (fun lastLogin => lastLogin ≠ Some InvalidDate) lastLogins →
  ∃ latest,
    foldl (fun acc lastLogin =>
             mathMax acc (match lastLogin with
                          | Some date => getTime date
                          | None => Some 0%Z
                          end))
      (Some m) lastLogins = Some latest
    ∧ (m ≤ latest)%Z
    ∧ (∀ t, Some (DateAt t) ∈ lastLogins → (t ≤ latest)%Z)
    ∧ (latest = m ∨ latest = 0%Z ∨ Some (DateAt latest) ∈ lastLogins).
Proof.
  induction lastLogins as [|lastLogin rest IH]; intros m Hvalid.
  - exists m. split; [done|]. split; [lia|]. split; [|by left].
    intros t Ht. by apply elem_of_nil in Ht.
  - apply Forall_cons in Hvalid as [Hv Hvalid]. simpl.
    destruct lastLogin as [[|t0]|]; [done| |]; simpl.
    + destruct (IH (Z.max m t0) Hvalid) as (latest & -> & Hm & Hall & Hone).
      exists latest. split; [done|]. split; [lia|]. split.
      * intros t Ht. apply elem_of_cons in Ht as [[= ->]|Ht]; [lia|auto].
      * destruct Hone as [->|[->|Hin]]; [|by right; left|by right; right; right].
        destruct (Z.max_spec m t0) as [[_ ->]|[_ ->]];
          [right; right; by left|by left].
    + destruct (IH (Z.max m 0) Hvalid) as (latest & -> & Hm & Hall & Hone).
      exists latest. split; [done|]. split; [lia|]. split.
      * intros t Ht. apply elem_of_cons in Ht as [[=]|Ht]. auto.
      * destruct Hone as [->|[->|Hin]]; [|by right; left|by right; right; right].
        destruct (Z.max_spec m 0) as [[_ ->]|[_ ->]]; [by right; left|by left].
Qed.

Lemma latestLogin_invalid (lastLogins : list (option Date)) : ∀ acc,
  acc = None ∨ Some InvalidDate ∈ lastLogins →
  foldl (fun acc lastLogin =>
           mathMax acc (match lastLogin with
                        | Some date => getTime date
                        | None => Some 0%Z
                        end))
    acc lastLogins = None.
Proof.
  induction lastLogins as [|lastLogin rest IH]; intros acc [->|Hin];
    [done|by apply elem_of_nil in Hin| |].
  - simpl. apply IH. by left.
  - simpl. apply IH. apply elem_of_cons in Hin as [<-|Hin]; [|by right].
    left. by destruct acc.
Qed.

End LastLoginFacts.

(** X10: when every character's last login is a valid date within the range
    of [Date] (or absent), the account's [lastLogin] is a valid date, not
    before the epoch and not before any character's last login, and it is
    the epoch or the last login of one of the characters.  When one
    character's last login is an invalid date, so is the account's. *)
Theorem accountLastLogin_latest (lastLogins : list (option Date)) :
  (Forall (fun lastLogin =>
             match lastLogin with
             | Some (DateAt t) => (Z.abs t ≤ 8640000000000000)%Z
             | Some InvalidDate => False
             | None => True
             end) lastLogins →
   ∃ latest,
     accountLastLogin lastLogins = DateAt latest
     ∧ (0 ≤ latest)%Z
     ∧ (∀ t, Some (DateAt t) ∈ lastLogins → (t ≤ latest)%Z)
     ∧ (latest = 0%Z ∨ Some (DateAt latest) ∈ lastLogins))
  ∧ (Some InvalidDate ∈ lastLogins →
     accountLastLogin lastLogins = InvalidDate).
Proof.
  split.
  - intros Hvalid.
    destruct (latestLogin_from lastLogins 0) as (latest & Hl & H0 & Hall & Hone).
    { eapply Forall_impl; [exact Hvalid|]. intros [[|t]|] H; done. }
    exists latest. unfold accountLastLogin, latestLogin. rewrite Hl.
    assert (latest = 0%Z ∨ Some (DateAt latest) ∈ lastLogins) as Hone'
      by (destruct Hone as [?|[?|?]]; auto).
    split; [|done]. simpl.
    assert (Z.abs latest ≤ 8640000000000000)%Z as Hrange.
    { destruct Hone' as [->|Hin]; [lia|].
      rewrite Forall_forall in Hvalid. apply (Hvalid _ Hin). }
    by rewrite (proj2 (Z.leb_le _ _) Hrange).
  - intros Hin. unfold accountLastLogin, latestLogin.
    rewrite latestLogin_invalid; [done|by right].
Qed.

Lemma accountLastLogin_latest_witness :
  accountLastLogin [Some (DateAt 1700000000000); None; Some (DateAt 1600000000000)]
  = DateAt 1700000000000
  ∧ accountLastLogin [Some (DateAt 5); Some InvalidDate] = InvalidDate.
Proof.
  split.
  - destruct (proj1 (accountLastLogin_latest
                [Some (DateAt 1700000000000); None; Some (DateAt 1600000000000)]))
      as (latest & _ & _ & _ & _).
    + repeat constructor; simpl; lia.
    + reflexivity.
  - apply (proj2 (accountLastLogin_latest [Some (DateAt 5); Some InvalidDate])).
    right. left.
Defined.

(** ** How the registration action ends *)

Section ActionOutcomes.
Context {U : Unicode} {C : Collaborators}.

Lemma registration_answers (password : Value) (data : FormData) (w : World) :
  fst (allResults (registrationRules password) data w)
  = [ (js "email",
       [ answered (fst (presenceValidator (formGet data (js "email")) w));
         answered (fst (emailValidator (formGet data (js "email")) w)) ]);
      (js "password",
       [ answered (fst (presenceValidator (formGet data (js "password")) w));
         answered (fst (stringValidator (formGet data (js "password")) w)) ]);
      (js "passwordConfirmation",
       [ answered (fst (presenceValidator
                          (formGet data (js "passwordConfirmation")) w));
         answered (fst (stringValidator
                          (formGet data (js "passwordConfirmation")) w));
         answered (fst (passwordsMatch password
                          (formGet data (js "passwordConfirmation")) w)) ]);
      (js "characterName",
       [ answered (fst (presenceValidator
                          (formGet data (js "characterName")) w));
         answered (fst (characterNameValidator
                          (formGet data (js "characterName")) w)) ]);
      (js "characterSex",
       [ answered (fst (presenceValidator (formGet data (js "characterSex"))
                          (snd (characterNameValidator
                                  (formGet data (js "characterName")) w))));
         answered (fst (stringValidator (formGet data (js "characterSex"))
                          (snd (characterNameValidator
                                  (formGet data (js "characterName")) w)))) ]) ].
Proof. reflexivity. Qed.

Lemma presence_passed (value : Value) (w : World) :
  translate w (js "validations.required") [] ≠ [] →
  isError (answered (fst (presenceValidator value w))) = false →
  Js.truthy value = true.
Proof.
  intros Hm. simpl. destruct (Js.truthy value); [done|]. simpl.
  by destruct (translate w (js "validations.required") []).
Qed.

Lemma string_passed (value : Value) (w : World) :
  translate w (js "validations.string") [] ≠ [] →
  Js.truthy value = true →
  isError (answered (fst (stringValidator value w))) = false →
  ∃ s, value = VString s ∧ s ≠ [].
Proof.
  intros Hm Ht. simpl. rewrite Ht.
  destruct value as [|s|]; simpl; [done| |].
  - intros _. exists s. split; [done|]. by intros ->.
  - by destruct (translate w (js "validations.string") []).
Qed.

Lemma email_passed (value : Value) (w : World) :
  translate w (js "validations.string") [] ≠ [] →
  Js.truthy value = true →
  isError (answered (fst (emailValidator value w))) = false →
  ∃ s, value = VString s ∧ s ≠ [].
Proof.
  intros Hm Ht.
  destruct value as [|s|]; simpl; [done| |].
  - intros _. exists s. split; [done|]. by intros ->.
  - by destruct (translate w (js "validations.string") []).
Qed.

Lemma name_passed (value : Value) (w : World) :
  translate w (js "validations.string") [] ≠ [] →
  Js.truthy value = true →
  isError (answered (fst (characterNameValidator value w))) = false →
  ∃ s, value = VString s ∧ s ≠ [].
Proof.
  intros Hm Ht.
  destruct value as [|s|]; [done| |].
  - intros _. exists s. split; [done|]. by intros ->.
  - simpl. by destruct (translate w (js "validations.string") []).
Qed.

(** With messages that are not empty, a form that passes validation has
    the four required fields as non-empty strings. *)
Lemma validation_passed_fields (data : FormData) (w w1 : World) :
  translate w (js "validations.required") [] ≠ [] →
  translate w (js "validations.string") [] ≠ [] →
  validate (registrationRules (formGet data (js "password"))) data w
  = (Return ∅, w1) →
  ∃ email password characterName characterSex,
    requiredStrings data email password characterName characterSex.
Proof.
  intros Hrequired Hstring Hv.
  destruct (registration_validate (formGet data (js "password")) data w)
    as (report & Hv' & Hin).
  rewrite Hv in Hv'. injection Hv' as <- _.
  destruct (validation_world (formGet data (js "characterName")) w)
    as (Ht & _).
  assert (∀ key answers,
            (key, answers)
            ∈ fst (allResults (registrationRules (formGet data (js "password")))
                     data w) →
            ∀ answer : option jsstring,
              answer ∈ answers → isError answer = false) as Hok.
  { intros key answers Hmem. apply reported_nil with (key := key).
    specialize (Hin key answers Hmem).
    rewrite lookup_empty in Hin. by destruct (reported key answers). }
  rewrite registration_answers in Hok.
  pose proof (Hok _ _ (list_elem_of_here _ _)) as He.
  pose proof (Hok _ _ (list_elem_of_further _ _ _ (list_elem_of_here _ _)))
    as Hp.
  pose proof (Hok _ _ (list_elem_of_further _ _ _
                         (list_elem_of_further _ _ _
                            (list_elem_of_further _ _ _
                               (list_elem_of_here _ _))))) as Hn.
  pose proof (Hok _ _ (list_elem_of_further _ _ _
                         (list_elem_of_further _ _ _
                            (list_elem_of_further _ _ _
                               (list_elem_of_further _ _ _
                                  (list_elem_of_here _ _)))))) as Hs.
  rewrite <- Ht in Hrequired, Hstring.
  destruct (email_passed (formGet data (js "email")) w)
    as (email & Hemail & ?);
    [by rewrite <- Ht
    |apply (presence_passed _ w); [by rewrite <- Ht|apply He; by left]
    |apply He; right; by left|].
  destruct (string_passed (formGet data (js "password")) w)
    as (password & Hpassword & ?);
    [by rewrite <- Ht
    |apply (presence_passed _ w); [by rewrite <- Ht|apply Hp; by left]
    |apply Hp; right; by left|].
  destruct (name_passed (formGet data (js "characterName")) w)
    as (characterName & Hname & ?);
    [by rewrite <- Ht
    |apply (presence_passed _ w); [by rewrite <- Ht|apply Hn; by left]
    |apply Hn; right; by left|].
  destruct (string_passed (formGet data (js "characterSex"))
              (snd (characterNameValidator (formGet data (js "characterName")) w)))
    as (characterSex & Hsex & ?);
    [done
    |apply (presence_passed _ (snd (characterNameValidator
                                      (formGet data (js "characterName")) w)));
       [done|apply Hs; by left]
    |apply Hs; right; by left|].
  exists email, password, characterName, characterSex.
  repeat split; done.
Qed.

(** The steps after a validation without errors, for a character name a
    player already has. *)
Lemma register_name_taken data w w1 email password characterName
  characterSex (p : Player) :
  requiredStrings data email password characterName characterSex →
  validate (registrationRules (formGet data (js "password"))) data w
  = (Return ∅, w1) →
  (∀ a, a ∈ accounts (database w1) →
        account_email a ≠ Str.toLowerCase email) →
  p ∈ players (database w1) →
  input_name (player_input p) = characterName →
  actions.default data w
  = (Return {| status := 400; invalid := None;
               errors := {[ js "characterName" :=
                              [js "Character name is already taken"] ]} |},
     logged (PlayersFindFirst characterName)
       (logged (AccountsFindUnique (Str.toLowerCase email)) w1)).
Proof.
  intros (He & He' & Hp & Hp' & Hn & Hn' & Hs & Hs') Hv Hemail Hin Hname.
  unfold actions.default, bind. rewrite Hv.
  change (0 <? size (∅ : Report))%nat with false. cbv iota.
  rewrite He, Hp, Hn, Hs.
  destruct email as [|e0 email']; [done|].
  destruct password as [|p0 password']; [done|].
  destruct characterName as [|n0 name']; [done|].
  destruct characterSex as [|s0 sex']; [done|].
  cbn [Js.truthy andb invariant invariantString ret].
  unfold accountsFindUnique, playersFindFirst, bind, logQuery, getDatabase,
    ret.
  cbn [database logged fst snd].
  rewrite find_none by (intros a Ha; apply eqb_false; by apply Hemail).
  cbn [database logged fst snd].
  destruct (find_some
              (fun p => Str.eqb (input_name (player_input p)) (n0 :: name'))
              (players (database w1)) p Hin) as [b ->]; [|done].
  by apply eqb_true.
Qed.

End ActionOutcomes.

(** X11: a valid submission whose email no account has but whose character
    name a player already bears is answered with the failure of status 400
    that says the character name is taken; the account was looked up, then
    the player, and nothing was created or sent. *)
Theorem character_name_taken `{U : Unicode, C : Collaborators}
  (data : FormData) (w : World)
  (email password characterName characterSex : jsstring) (p : Player) :
  requiredStrings data email password characterName characterSex →
  fst (validate (registrationRules (VString password)) data w) = Return ∅ →
  (∀ a, a ∈ accounts (database w) → account_email a ≠ Str.toLowerCase email) →
  p ∈ players (database w) →
  input_name (player_input p) = characterName →
  ∃ w' counts,
    actions.default data w
    = (Return {| status := 400; invalid := None;
                 errors := {[ js "characterName" :=
                                [js "Character name is already taken"] ]} |},
       w')
    ∧ Forall (fun q => ∃ name, q = MonstersCount name) counts
    ∧ queries w'
      = queries w ++ counts
        ++ [ AccountsFindUnique (Str.toLowerCase email);
             PlayersFindFirst characterName ]
    ∧ database w' = database w
    ∧ outbox w' = outbox w.
Proof.
  intros Hreq Hvalid Hemail Hin Hname.
  destruct (registration_validate (formGet data (js "password")) data w)
    as (report & Hv & _).
  assert (formGet data (js "password") = VString password) as Hp
    by apply Hreq.
  rewrite <- Hp, Hv in Hvalid. injection Hvalid as ->.
  destruct (validation_world (formGet data (js "characterName")) w)
    as (Ht & Hd & Hnow & Hout & counts & Hcounts & Hq).
  eexists. exists counts. split.
  - apply (register_name_taken data w _ email password characterName
             characterSex p Hreq Hv); [by rewrite Hd|by rewrite Hd|done].
  - simpl. by rewrite Hq, Hd, Hout, <- !app_assoc.
Qed.

Lemma character_name_taken_witness :
  let first := Sample.form "User@Example.com" "secret" "secret" "Gregory" "male" in
  let second := Sample.form "other@example.com" "hidden" "hidden" "Gregory" "male" in
  let w1 := snd (@actions.default asciiOnly Sample.collaborators first
                   Sample.world) in
  ∃ w2,
    @actions.default asciiOnly Sample.collaborators second w1
    = (Return {| status := 400; invalid := None;
                 errors := {[ js "characterName" :=
                                [js "Character name is already taken"] ]} |},
       w2)
    ∧ database w2 = database w1.
Proof.
  destruct (@character_name_taken asciiOnly Sample.collaborators
              (Sample.form "other@example.com" "hidden" "hidden" "Gregory" "male")
              (snd (@actions.default asciiOnly Sample.collaborators
                      (Sample.form "User@Example.com" "secret" "secret"
                         "Gregory" "male")
                      Sample.world))
              (js "other@example.com") (js "hidden") (js "Gregory") (js "male")
              ({| player_account := 1;
                  player_input :=
                    @generateCharacterInput Sample.collaborators
                      (js "Gregory") VNull (js "male");
                  player_is_main := true |} : @Player Sample.collaborators))
    as (w2 & counts & Hr & _ & _ & Hd & _).
  - repeat split; discriminate.
  - reflexivity.
  - intros a Ha. apply list_elem_of_singleton in Ha as ->.
    vm_compute. discriminate.
  - apply list_elem_of_here.
  - reflexivity.
  - exists w2. split; [exact Hr|exact Hd].
Defined.

(** X12: when the messages for a missing field and for a value that is not a
    string are not empty, a form that passes validation has its email,
    password, character name and sex as non-empty strings; so none of the
    invariants that follow the validation fails: however the request ends,
    it is not with an invariant failure. *)
Theorem action_invariants_hold `{U : Unicode, C : Collaborators}
  (data : FormData) (w : World) :
  translate w (js "validations.required") [] ≠ [] →
  translate w (js "validations.string") [] ≠ [] →
  (fst (validate (registrationRules (formGet data (js "password"))) data w)
   = Return ∅ →
   ∃ email password characterName characterSex,
     requiredStrings data email password characterName characterSex)
  ∧ ∀ message,
      fst (actions.default data w) ≠ Throw (InvariantFailed message).
Proof.
  intros Hrequired Hstring.
  destruct (registration_validate (formGet data (js "password")) data w)
    as (report & Hv & _).
  split.
  - rewrite Hv. cbn [fst]. intros [= ->].
    by apply (validation_passed_fields data w _ Hrequired Hstring Hv).
  - intros message. unfold actions.default, bind. rewrite Hv.
    destruct (0 <? size report)%nat eqn:Hsize; [done|].
    assert (report = ∅) as ->.
    { apply map_size_empty_inv. apply Nat.ltb_ge in Hsize. lia. }
    destruct (validation_passed_fields data w _ Hrequired Hstring Hv)
      as (email & password & characterName & characterSex
          & He & He' & Hp & Hp' & Hn & Hn' & Hs & Hs').
    rewrite He, Hp, Hn, Hs.
    destruct email as [|e0 email']; [done|].
    destruct password as [|p0 password']; [done|].
    destruct characterName as [|n0 name']; [done|].
    destruct characterSex as [|s0 sex']; [done|].
    cbn [Js.truthy andb invariant invariantString ret].
    unfold accountsFindUnique, playersFindFirst, accountsCreate, bind,
      logQuery, getDatabase, ret, dateNow, setDatabase,
      sendVerificationEmail, throw.
    cbn [database logged fst snd].
    destruct (find _ _); [done|].
    destruct (find _ _); [done|].
    by destruct (existsb _ _ || _).
Qed.

Lemma action_invariants_hold_witness :
  (∃ email password characterName characterSex,
     requiredStrings
       (Sample.form "User@Example.com" "secret" "secret" "Gregory" "male")
       email password characterName characterSex)
  ∧ ∀ message,
      fst (@actions.default asciiOnly Sample.collaborators
             (Sample.form "User@Example.com" "secret" "secret" "Gregory" "male")
             Sample.world)
      ≠ Throw (InvariantFailed message).
Proof.
  destruct (@action_invariants_hold asciiOnly Sample.collaborators
              (Sample.form "User@Example.com" "secret" "secret" "Gregory" "male")
              Sample.world)
    as [Hfields Hthrow].
  - vm_compute. discriminate.
  - vm_compute. discriminate.
  - split; [apply Hfields; reflexivity|exact Hthrow].
Defined.

(** With messages that are all empty no validator reports anything, and the
    first invariant fails on the empty form. *)
Example silent_messages_break_invariant :
  fst (@actions.default asciiOnly Sample.collaborators []
         {| translate := fun _ _ => [];
            database := database Sample.world;
            now := now Sample.world;
            outbox := [];
            queries := [] |})
  = Throw (InvariantFailed (js "Missing required fields")).
Proof. reflexivity. Qed.

(** X13: a failure that the action returns from its validation or from one
    of its two lookups (the report of the validation, the taken email, the
    taken character name) comes before anything is written: the database is
    as it was, no creation call was made and no mail was sent. *)
Theorem early_failures_write_nothing `{U : Unicode, C : Collaborators}
  (data : FormData) (w w' : World) (failure : ActionFailure) :
  actions.default data w = (Return failure, w') →
  invalid failure = Some true
  ∨ errors failure = {[ js "email" := [js "Email is already taken"] ]}
  ∨ errors failure
    = {[ js "characterName" := [js "Character name is already taken"] ]} →
  database w' = database w
  ∧ outbox w' = outbox w
  ∧ ∀ created, AccountsCreate created ∈ queries w' →
               AccountsCreate created ∈ queries w.
Proof.
  intros Hrun _.
  destruct (registration_validate (formGet data (js "password")) data w)
    as (report & Hv & _).
  destruct (validation_world (formGet data (js "characterName")) w)
    as (_ & Hd & _ & Hout & counts & Hcounts & Hq).
  assert (∀ created w1,
            queries w1
            = queries (snd (characterNameValidator
                              (formGet data (js "characterName")) w)) →
            AccountsCreate created ∈ queries w1 →
            AccountsCreate created ∈ queries w) as Hreads.
  { intros created w1 -> Hin. rewrite Hq in Hin.
    apply elem_of_app in Hin as [Hin|Hin]; [done|].
    rewrite Forall_forall in Hcounts.
    by destruct (Hcounts _ Hin) as [name ?]. }
  revert Hrun. unfold actions.default, bind. rewrite Hv.
  destruct (0 <? size report)%nat.
  { intros [= <- <-]. split; [done|]. split; [done|].
    intros created. by apply Hreads. }
  destruct (Js.truthy _ && _ && _ && _); cbn [invariant ret throw]; [|done].
  destruct (formGet data (js "email")) as [|email|];
    cbn [invariantString ret throw]; [done| |done].
  destruct (formGet data (js "password")) as [|password|];
    cbn [invariantString ret throw]; [done| |done].
  destruct (formGet data (js "characterName")) as [|characterName|];
    cbn [invariantString ret throw]; try done.
  destruct (formGet data (js "characterSex")) as [|characterSex|];
    cbn [invariantString ret throw]; try done.
  unfold accountsFindUnique, playersFindFirst, accountsCreate, bind,
    logQuery, getDatabase, ret, dateNow, setDatabase,
    sendVerificationEmail, throw.
  cbn [database logged fst snd].
  destruct (find _ _).
  { intros [= <- <-]. cbn [database outbox queries logged].
    split; [done|]. split; [done|]. intros created Hin.
    apply elem_of_app in Hin as [Hin|Hin]; [by apply (Hreads created _ eq_refl)|].
    by apply list_elem_of_singleton in Hin. }
  destruct (find _ _).
  { intros [= <- <-]. cbn [database outbox queries logged].
    split; [done|]. split; [done|]. intros created Hin.
    apply elem_of_app in Hin as [Hin|Hin];
      [|by apply list_elem_of_singleton in Hin].
    apply elem_of_app in Hin as [Hin|Hin]; [by apply (Hreads created _ eq_refl)|].
    by apply list_elem_of_singleton in Hin. }
  by destruct (existsb _ _ || _).
Qed.

Lemma early_failures_write_nothing_witness :
  let data := Sample.form "User@Example.com" "secret" "Secret" "Gregory" "male" in
  let run := @actions.default asciiOnly Sample.collaborators data Sample.world in
  (∃ failure, fst run = Return failure ∧ invalid failure = Some true)
  ∧ database (snd run) = database Sample.world
  ∧ outbox (snd run) = outbox Sample.world.
Proof.
  split; [eexists; split; reflexivity|].
  destruct (@early_failures_write_nothing asciiOnly Sample.collaborators
              (Sample.form "User@Example.com" "secret" "Secret" "Gregory" "male")
              Sample.world _ _ eq_refl)
    as (Hd & Hout & _).
  - left. reflexivity.
  - split; [exact Hd|exact Hout].
Defined.

(** X14: validating the registration form writes nothing: after it the
    messages, the database, the clock and the mails are as they were; the
    one call it may log is the monster count, made only for a character name
    that passed steps 1 to 7 of the policy. *)
Theorem registration_validation_reads `{U : Unicode, C : Collaborators}
  (password : Value) (data : FormData) (w : World) :
  translate (snd (validate (registrationRules password) data w)) = translate w
  ∧ database (snd (validate (registrationRules password) data w)) = database w
  ∧ now (snd (validate (registrationRules password) data w)) = now w
  ∧ outbox (snd (validate (registrationRules password) data w)) = outbox w
  ∧ (queries (snd (validate (registrationRules password) data w)) = queries w
     ∨ ∃ name, formGet data (js "characterName") = VString name
               ∧ passesShape name = true
               ∧ queries (snd (validate (registrationRules password) data w))
                 = queries w ++ [MonstersCount name]).
Proof.
  destruct (registration_validate password data w) as (report & Hv & _).
  rewrite Hv. cbn [snd].
  destruct (characterName_world (formGet data (js "characterName")) w)
    as [Hw|(name & Hname & Hw)].
  - rewrite Hw. repeat split. by left.
  - rewrite Hw. repeat split. right. exists name. split; [done|].
    split; [|done].
    destruct (characterName_counts_when_shaped
                (formGet data (js "characterName")) w)
      as (name' & Hname' & Hshape).
    + rewrite Hw. simpl. intros H. apply (f_equal length) in H.
      rewrite length_app in H. simpl in H. lia.
    + rewrite Hname in Hname'. by injection Hname' as <-.
Qed.

(** ** The order of the fields *)

Section EngineOrder.
Context {U : Unicode} {W : Type}.

Lemma fieldResults_pure (validators : list (@Validator W)) (value : Value)
  (w : W) :
  (∀ validator value w, validator ∈ validators →
     snd (validator value w) = w) →
  fieldResults validators value w
  = (List.map (fun validator : Validator => answered (fst (validator value w)))
       validators, w).
Proof.
  induction validators as [|validator rest IH]; intros Hpure; [done|].
  cbn [fieldResults List.map]. rewrite (Hpure validator value w) by (by left).
  rewrite IH; [done|]. intros v x y Hv. apply Hpure. by right.
Qed.

Lemma allResults_pure (rules : list (jsstring * list (@Validator W)))
  (data : FormData) (w : W) :
  pureRules rules →
  allResults rules data w = (List.map (answersOf data w) rules, w).
Proof.
  induction rules as [|[key validators] rest IH]; intros Hpure; [done|].
  cbn [allResults List.map].
  rewrite fieldResults_pure.
  - cbn [fst snd]. rewrite IH; [done|].
    intros k vs v x y Hk Hv. apply (Hpure k vs); [by right|done].
  - intros v x y Hv. apply (Hpure key validators v x y); [by left|done].
Qed.

Lemma pureRules_answer (rules : list (jsstring * list (@Validator W)))
  (data : FormData) :
  pureRules rules → validatorsAnswer rules data.
Proof.
  intros Hpure key validators validator w Hk Hv.
  apply (Hpure key validators validator (formGet data key) w Hk Hv).
Qed.

Lemma validate_pure (rules : list (jsstring * list (@Validator W)))
  (data : FormData) (w : W) :
  NoDup rules.*1 →
  Forall (fun key => Js.inherited key = false) rules.*1 →
  pureRules rules →
  ∃ report,
    validate rules data w = (Return report, w)
    ∧ (∀ key, key ∉ rules.*1 → report !! key = None)
    ∧ ∀ rule, rule ∈ rules →
        report !! rule.1
        = match reported rule.1 (answersOf data w rule).2 with
          | [] => None
          | messages => Some messages
          end.
Proof.
  intros Hnd Hk Hpure.
  destruct (validate_results rules data w Hnd Hk
              (pureRules_answer rules data Hpure)) as (report & Hv & Hout & Hin).
  rewrite allResults_pure in Hv, Hin by done.
  exists report. split; [done|]. split; [done|].
  intros rule Hrule. apply (Hin rule.1 (answersOf data w rule).2).
  cbn [fst]. apply list_elem_of_In, in_map_iff. exists rule.
  split; [done|]. by apply list_elem_of_In.
Qed.

End EngineOrder.

(** X15: for a rule set whose validators only answer (none throws, none
    changes the world), the order of the fields does not matter: [validate]
    on the same rules in another order returns the same report. *)
Theorem validate_field_order `{U : Unicode} {W : Type}
  (rules rules' : list (jsstring * list (@Validator W)))
  (data : FormData) (w : W) :
  rules ≡ₚ rules' →
  NoDup rules.*1 →
  Forall (fun key => Js.inherited key = false) rules.*1 →
  pureRules rules →
  validate rules' data w = validate rules data w.
Proof.
  intros Hperm Hnd Hk Hpure.
  assert (NoDup rules'.*1) as Hnd' by (by rewrite <- Hperm).
  assert (Forall (fun key => Js.inherited key = false) rules'.*1) as Hk'
    by (by rewrite <- Hperm).
  assert (pureRules rules') as Hpure'.
  { intros key vs v x y Hin. apply (Hpure key vs). by rewrite Hperm. }
  destruct (validate_pure rules data w Hnd Hk Hpure)
    as (report & -> & Hout & Hin).
  destruct (validate_pure rules' data w Hnd' Hk' Hpure')
    as (report' & -> & Hout' & Hin').
  f_equal. f_equal. apply map_eq. intros key.
  destruct (decide (key ∈ rules.*1)) as [Hkey|Hkey].
  - apply list_elem_of_fmap in Hkey as (rule & -> & Hrule).
    rewrite (Hin rule Hrule). apply Hin'. by rewrite <- Hperm.
  - rewrite (Hout key Hkey). apply Hout'. by rewrite <- Hperm.
Qed.

Lemma validate_field_order_witness :
  @validate asciiOnly World
    [ (js "password", [presenceValidator; stringValidator]);
      (js "email", [presenceValidator; emailValidator]) ]
    (Sample.form "User@Example" "" "" "Gregory" "male") Sample.world
  = @validate asciiOnly World
      [ (js "email", [presenceValidator; emailValidator]);
        (js "password", [presenceValidator; stringValidator]) ]
      (Sample.form "User@Example" "" "" "Gregory" "male") Sample.world.
Proof.
  apply (@validate_field_order asciiOnly World).
  - apply perm_swap.
  - apply (bool_decide_unpack _). vm_compute. exact I.
  - repeat constructor.
  - intros key validators validator value w Hrule Hv.
    repeat (apply elem_of_cons in Hrule as [[= -> ->]|Hrule]);
      [..|by apply elem_of_nil in Hrule];
      repeat (apply elem_of_cons in Hv as [->|Hv]);
      try (by apply elem_of_nil in Hv);
      (split; [reflexivity|eexists; reflexivity]).
Defined.

(** ** Messages without the field token *)

Lemma splitFirst_absent (p : jsstring) : ∀ s,
  Str.includes s p = false → Str.splitFirst p s = None.
Proof.
  induction s as [|c s IH]; cbn [Str.includes Str.splitFirst]; intros H;
    apply orb_false_iff in H as [-> H]; [done|].
  by rewrite IH.
Qed.

(** X16: in [validate], for every rule set (with field names that are not
    inherited property names and validators that answer): when none of the
    error messages of a field's validators contains [:field], the report
    lists under the field exactly these messages, as the validators gave
    them and in their order, whatever the field is called (a dollar sign in
    the field name included). *)
Theorem message_without_token `{U : Unicode} {W : Type}
  (rules : list (jsstring * list (@Validator W))) (data : FormData) (w : W) :
  NoDup rules.*1 →
  Forall (fun key => Js.inherited key = false) rules.*1 →
  validatorsAnswer rules data →
  ∃ report,
    fst (validate rules data w) = Return report
    ∧ ∀ key answers, (key, answers) ∈ fst (allResults rules data w) →
        (∀ message, message ∈ errorMessages answers →
                    Str.includes message (js ":field") = false) →
        report !! key = match errorMessages answers with
                        | [] => None
                        | messages => Some messages
                        end.
Proof.
  intros Hnd Hk Ha.
  destruct (validate_results rules data w Hnd Hk Ha)
    as (report & Hv & _ & Hin).
  exists report. split; [by rewrite Hv|]. intros key answers Hrun Habsent.
  rewrite (Hin key answers Hrun), reported_errorMessages.
  assert (List.map (fun message =>
                      Str.replace message (js ":field") (toProperCase key))
            (errorMessages answers) = errorMessages answers) as ->; [|done].
  induction (errorMessages answers) as [|message rest IH]; [done|].
  cbn [List.map]. f_equal.
  - unfold Str.replace. rewrite splitFirst_absent; [done|].
    apply Habsent. by left.
  - apply IH. intros m Hm. apply Habsent. by right.
Qed.

Lemma message_without_token_witness :
  ∃ report,
    fst (@validate asciiOnly unit
           [(js "email", [Sample.failing "The :field is required"]);
            (js "$&", [Sample.failing "Passwords do not match";
                       Sample.emptyMessage; Sample.failing "Too short"])]
           [] tt)
    = Return report
    ∧ report !! js "$&"
      = Some [js "Passwords do not match"; js "Too short"].
Proof.
  destruct (@message_without_token asciiOnly unit
              [(js "email", [Sample.failing "The :field is required"]);
               (js "$&", [Sample.failing "Passwords do not match";
                          Sample.emptyMessage; Sample.failing "Too short"])]
              [] tt)
    as (report & Hv & Hin).
  - apply (bool_decide_unpack _). vm_compute. exact I.
  - repeat constructor.
  - intros key validators validator [] Hrule Hvalidator.
    repeat (apply elem_of_cons in Hrule as [Hrule|Hrule];
            [injection Hrule as -> ->;
             repeat (apply elem_of_cons in Hvalidator as [->|Hvalidator];
                     [by eexists|]);
             by apply elem_of_nil in Hvalidator|]).
    by apply elem_of_nil in Hrule.
  - exists report. split; [exact Hv|].
    apply (Hin (js "$&")
             [Some (js "Passwords do not match"); Some [];
              Some (js "Too short")]).
    + right. left.
    + intros message Hm. cbn [errorMessages] in Hm.
      repeat (apply elem_of_cons in Hm as [->|Hm]; [reflexivity|]).
      by apply elem_of_nil in Hm.
Defined.

(** ** [debounce] *)

Section DebounceFacts.
Context {A : Type}.

Implicit Types (s : @Debounced A) (events : list (@Event A)).

Lemma oneTimer_fresh (time : N) : oneTimer (@fresh A time).
Proof. reflexivity. Qed.

Lemma oneTimer_debounced (wait : N) (args : A) s :
  oneTimer s →
  timers (debounced wait args s)
  = {[ nextTimer s := ((clock s + timerDelay wait)%N, args) ]}.
Proof.
  unfold oneTimer, debounced. cbn.
  destruct (timeout s) as [id|].
  - intros [entry ->]. by rewrite delete_singleton_eq.
  - by intros ->.
Qed.

Lemma oneTimer_step (wait : N) s (e : Event) s' :
  oneTimer s → step wait s e = Some s' → oneTimer s'.
Proof.
  intros Hs. destruct e as [args|ms|id]; cbn.
  - intros [= <-]. pose proof (oneTimer_debounced wait args s Hs) as Ht.
    unfold oneTimer.
    change (timeout (debounced wait args s)) with (Some (nextTimer s)).
    cbv beta iota. eexists. exact Ht.
  - intros [= <-]. exact Hs.
  - unfold fire, oneTimer in *.
    destruct (timers s !! id) as [[due args]|] eqn:Hid; [|done].
    destruct (due <=? clock s)%N; [|done]. intros [= <-]. cbn.
    destruct (timeout s) as [id'|].
    + destruct Hs as [entry Hs]. rewrite Hs in Hid |- *.
      apply lookup_singleton_Some in Hid as [-> _].
      by rewrite delete_singleton_eq.
    + rewrite Hs in Hid. by rewrite lookup_empty in Hid.
Qed.

Lemma oneTimer_run (wait : N) events : ∀ s s',
  oneTimer s → run wait events s = Some s' → oneTimer s'.
Proof.
  induction events as [|e rest IH]; intros s s' Hs; cbn.
  - by intros [= <-].
  - destruct (step wait s e) as [s1|] eqn:He; [|done].
    apply IH. by eapply oneTimer_step.
Qed.

(** What is still owed: the runs made, and the timer that is set. *)
Lemma owed_step (wait : N) s (e : Event) s' :
  oneTimer s → step wait s e = Some s' →
  (length (runs s') + pending s'
   ≤ length (runs s) + pending s + callCount [e])%nat.
Proof.
  intros Hs. destruct e as [args|ms|id]; cbn.
  - intros [= <-]. unfold pending. cbn. destruct (timeout s); lia.
  - intros [= <-]. unfold pending. cbn. lia.
  - unfold fire, oneTimer, pending in *.
    destruct (timers s !! id) as [[due args]|] eqn:Hid; [|done].
    destruct (due <=? clock s)%N; [|done]. intros [= <-]. cbn.
    rewrite length_app. cbn.
    destruct (timeout s) as [id'|]; [lia|].
    rewrite Hs in Hid. by rewrite lookup_empty in Hid.
Qed.

Lemma callCount_cons (e : @Event A) events :
  callCount (e :: events) = (callCount [e] + callCount events)%nat.
Proof. unfold callCount. cbn. by destruct e. Qed.

Lemma owed_run (wait : N) events : ∀ s s',
  oneTimer s → run wait events s = Some s' →
  (length (runs s') + pending s'
   ≤ length (runs s) + pending s + callCount events)%nat.
Proof.
  induction events as [|e rest IH]; intros s s' Hs; cbn [run].
  - intros [= <-]. lia.
  - destruct (step wait s e) as [s1|] eqn:He; [|done]. intros Hrun.
    pose proof (owed_step _ _ _ _ Hs He).
    pose proof (IH _ _ (oneTimer_step _ _ _ _ Hs He) Hrun).
    rewrite callCount_cons. lia.
Qed.

(** X17: for a delay from 1 to 2147483647 milliseconds, and however the
    debounced function has been used before: after a call on [args] nothing
    runs while less than [wait] milliseconds have passed; once [wait]
    milliseconds have passed the one timer that can run is the one this call
    set, and it runs [func] once, on [args], and leaves no timer behind. *)
Theorem debounce_waits (wait time : N) events s (args : A) :
  (1 ≤ wait ≤ 2147483647)%N →
  run wait events (fresh time) = Some s →
  let called := debounced wait args s in
  (∀ ms id, (ms < wait)%N → fire id (elapse ms called) = None)
  ∧ (∀ ms id, (wait ≤ ms)%N → id ≠ nextTimer s →
       fire id (elapse ms called) = None)
  ∧ (∀ ms, (wait ≤ ms)%N →
       ∃ s', fire (nextTimer s) (elapse ms called) = Some s'
             ∧ runs s' = runs s ++ [((clock s + ms)%N, args)]
             ∧ timers s' = ∅ ∧ timeout s' = None).
Proof.
  intros Hwait Hrun called.
  pose proof (oneTimer_run _ _ _ _ (oneTimer_fresh time) Hrun) as Hs.
  pose proof (oneTimer_debounced wait args s Hs) as Ht.
  assert (timerDelay wait = wait) as Hdelay.
  { unfold timerDelay.
    destruct (N.leb_spec 1 wait); [|lia].
    destruct (N.leb_spec wait 2147483647); [done|lia]. }
  rewrite Hdelay in Ht.
  repeat split.
  - intros ms id Hms. unfold fire. cbn [timers elapse].
    unfold called. rewrite Ht.
    destruct (decide (id = nextTimer s)) as [->|Hne].
    + rewrite lookup_singleton_eq. cbn.
      destruct (N.leb_spec (clock s + wait) (clock s + ms)); [lia|done].
    + by rewrite lookup_singleton_ne.
  - intros ms id _ Hne. unfold fire. cbn [timers elapse].
    unfold called. rewrite Ht. by rewrite lookup_singleton_ne.
  - intros ms Hms. unfold fire. cbn [timers elapse].
    unfold called. rewrite Ht. rewrite lookup_singleton_eq. cbn.
    destruct (N.leb_spec (clock s + wait) (clock s + ms)); [|lia].
    eexists. split; [reflexivity|]. cbn.
    by rewrite delete_singleton_eq.
Qed.

(** X18: in every state the debounced function reaches, at most one timer
    is set (the one [timeout] names), and [func] has run at most as often
    as the function was called, one time less while a timer is set. *)
Theorem debounce_coalesces (wait time : N) events s :
  run wait events (@fresh A time) = Some s →
  match timeout s with
  | Some id => ∃ entry, timers s = {[ id := entry ]}
  | None => timers s = ∅
  end
  ∧ (length (runs s) + pending s ≤ callCount events)%nat.
Proof.
  intros Hrun. split.
  - exact (oneTimer_run _ _ _ _ (oneTimer_fresh time) Hrun).
  - pose proof (owed_run _ _ _ _ (oneTimer_fresh time) Hrun) as H.
    cbn in H. lia.
Qed.

End DebounceFacts.

Lemma debounce_waits_witness :
  let s := debounced 300 (js "a") (fresh 0) in
  let called := debounced 300 (js "ab") (elapse 100 s) in
  (∀ ms id, (ms < 300)%N → fire id (elapse ms called) = None)
  ∧ (∀ ms id, (300 ≤ ms)%N → id ≠ 2%positive →
       fire id (elapse ms called) = None)
  ∧ (∀ ms, (300 ≤ ms)%N →
       ∃ s', fire 2%positive (elapse ms called) = Some s'
             ∧ runs s' = [((100 + ms)%N, js "ab")]
             ∧ timers s' = ∅ ∧ timeout s' = None).
Proof.
  exact (debounce_waits 300 0 [Call (js "a"); Elapse 100]
           (elapse 100 (debounced 300 (js "a") (fresh 0))) (js "ab")
           ltac:(lia) eq_refl).
Defined.

Lemma debounce_coalesces_witness :
  let events := [Call (js "a"); Elapse 100; Call (js "ab"); Elapse 300;
                 Fire 2%positive] in
  ∃ s, run 300 events (fresh 0) = Some s
       ∧ timers s = ∅
       ∧ (length (runs s) + pending s ≤ callCount events)%nat.
Proof.
  eexists. split; [reflexivity|].
  exact (debounce_coalesces 300 0
           [Call (js "a"); Elapse 100; Call (js "ab"); Elapse 300;
            Fire 2%positive] _ eq_refl).
Defined.

(** ** What [validate] reads of the form *)

Section EngineReads.
Context {U : Unicode} {W : Type}.

Lemma validateEntries_reads (data data' : FormData) :
  ∀ (entries : list (jsstring * list (@Validator W))) (errors : Report) (w : W),
  (∀ key, key ∈ entries.*1 → formGet data' key = formGet data key) →
  validateEntries entries data' errors w = validateEntries entries data errors w.
Proof.
  induction entries as [|[key validators] rest IH]; intros errors w Hsame;
    [done|].
  cbn [validateEntries]. rewrite (Hsame key) by (cbn; left).
  unfold bind.
  destruct (validateField key (formGet data key) validators errors w)
    as [[errors'|e] w']; [|done].
  apply IH. intros k Hk. apply Hsame. cbn. by right.
Qed.

(** X19: [validate] reads of the form only the first value under each field
    that has rules: two forms that agree on these give the same report (or
    the same exception) and the same world, whatever else they hold. *)
Theorem validate_reads_ruled_fields
  (rules : list (jsstring * list (@Validator W))) (data data' : FormData)
  (w : W) :
  (∀ key, key ∈ rules.*1 → formGet data' key = formGet data key) →
  validate rules data' w = validate rules data w.
Proof. apply validateEntries_reads. Qed.

End EngineReads.

Lemma validate_reads_ruled_fields_witness :
  @validate asciiOnly unit
    [(js "email", [Sample.failing "The :field is invalid"])]
    [(js "other", VString (js "x")); (js "email", VString (js "a"));
     (js "email", VString (js "b"))] tt
  = @validate asciiOnly unit
      [(js "email", [Sample.failing "The :field is invalid"])]
      [(js "email", VString (js "a"))] tt.
Proof.
  apply (@validate_reads_ruled_fields asciiOnly unit).
  intros key Hkey. cbn in Hkey. apply list_elem_of_singleton in Hkey as ->.
  reflexivity.
Defined.
